(** * Question builder: the zod schema, the zustand store and the derived views

    A shallow embedding of [apps/question-builder/src/App.tsx]:
    - [questionSchema] (the zod schema the form resolver runs),
    - the zustand store [useQuestionStore] with [addQuestion],
      [updateQuestion], [deleteQuestion] and [getQuestionsByCategory],
    - the two values the component derives on every render, [categories]
      and [filteredQuestions].

    Strings are [string]; [===] on strings is equality of strings. A [Date]
    is its time value in milliseconds. Arrays are lists. *)

From Stdlib Require Import ZArith DecimalString.
From Stdlib Require DecimalPos DecimalZ.
From stdpp Require Import base option list strings gmap.

Local Open Scope Z_scope.
Local Open Scope string_scope.

(** ** JavaScript values

    What a caller can hand to the schema (its input type is [unknown]) and
    what a store action can return. Numbers are only ever told apart from
    strings, arrays and [undefined] here, so an integer stands for them. *)

#[warnings="-register-all"]
Inductive JsValue : Type :=
  | JUndefined
  | JNull
  | JBool (b : bool)
  | JNumber (n : Z)
  | JString (s : string)
  | JArray (items : list JsValue)
  | JObject (props : gmap string JsValue).

(** [o[k]]: a property that is not there reads as [undefined]. *)
Definition get_prop (props : gmap string JsValue) (k : string) : JsValue :=
  default JUndefined (props !! k).

(** How a call ends. The actions of the store are arrow functions whose body
    is the call [set(...)]: they end normally with what [set] returns. *)
Inductive Completion : Type :=
  | Returns (v : JsValue)
  | Throws (name : string).

(** ** The data model (lines 13-27) *)

Inductive QuestionType : Type := MultipleChoice | TrueFalse | ShortAnswer.
Inductive Difficulty : Type := Easy | Medium | Hard.

Definition Date : Type := Z.

(** [type QuestionForm = z.infer<typeof questionSchema>] *)
Record QuestionForm : Type := mkQuestionForm {
  type : QuestionType;
  question : string;
  options : option (list string);
  correctAnswer : string;
  difficulty : Difficulty;
  category : string
}.

(** [interface Question extends QuestionForm { id: string; createdAt: Date }] *)
Record Question : Type := mkQuestion {
  form :> QuestionForm;
  id : string;
  createdAt : Date
}.

#[global] Instance QuestionType_eq_dec : EqDecision QuestionType.
Proof. solve_decision. Defined.
#[global] Instance Difficulty_eq_dec : EqDecision Difficulty.
Proof. solve_decision. Defined.
#[global] Instance QuestionForm_eq_dec : EqDecision QuestionForm.
Proof. solve_decision. Defined.
#[global] Instance Question_eq_dec : EqDecision Question.
Proof. solve_decision. Defined.

(** ** The zod schema (lines 13-20)

    Each schema is a function from the path it sits at and the input value
    to the issues it raises and the value it parsed ([None] when it gave up
    on the input). Issues are collected from every key; none of the checks
    stops the others. *)

Inductive PathSeg : Type := Key (k : string) | Index (i : nat).
Inductive IssueCode : Type := invalid_type | invalid_enum_value | too_small.

#[global] Instance PathSeg_eq_dec : EqDecision PathSeg.
Proof. solve_decision. Defined.
#[global] Instance IssueCode_eq_dec : EqDecision IssueCode.
Proof. solve_decision. Defined.

(** [message] is the text given in the schema, [None] for the library's own
    wording. *)
Record ZodIssue : Type := mkIssue {
  code : IssueCode;
  path : list PathSeg;
  message : option string
}.

Definition Parsed (A : Type) : Type := (list ZodIssue * option A)%type.

(** [z.string()] *)
Definition z_string (at_path : list PathSeg) (input : JsValue) : Parsed string :=
  match input with
  | JString s => ([], Some s)
  | _ => ([mkIssue invalid_type at_path None], None)
  end.

(** [z.string().min(minimum, msg)]: the check is [input.length < minimum];
    the string goes through as it is. The schema only uses [min(1)], where
    counting bytes and counting UTF-16 units agree: the empty string alone
    is too short. *)
Definition z_string_min (minimum : nat) (msg : string)
    (at_path : list PathSeg) (input : JsValue) : Parsed string :=
  match input with
  | JString s =>
      if decide (String.length s < minimum)%nat
      then ([mkIssue too_small at_path (Some msg)], Some s)
      else ([], Some s)
  | _ => ([mkIssue invalid_type at_path None], None)
  end.

(** [z.enum([...])]: each literal with the constructor that stands for it. *)
Definition z_enum {A : Type} (values : list (string * A))
    (at_path : list PathSeg) (input : JsValue) : Parsed A :=
  match input with
  | JString s =>
      match (list_to_map values : gmap string A) !! s with
      | Some a => ([], Some a)
      | None => ([mkIssue invalid_enum_value at_path None], None)
      end
  | _ => ([mkIssue invalid_type at_path None], None)
  end.

(** [z.array(element)]: every item is parsed at its index. *)
Definition z_array {A : Type} (element : list PathSeg -> JsValue -> Parsed A)
    (at_path : list PathSeg) (input : JsValue) : Parsed (list A) :=
  match input with
  | JArray items =>
      let results := imap (fun i item => element (at_path ++ [Index i])%list item) items in
      (concat (fst <$> results), mapM snd results)
  | _ => ([mkIssue invalid_type at_path None], None)
  end.

(** [inner.optional()] *)
Definition z_optional {A : Type} (inner : list PathSeg -> JsValue -> Parsed A)
    (at_path : list PathSeg) (input : JsValue) : Parsed (option A) :=
  match input with
  | JUndefined => ([], Some None)
  | _ => let '(issues, v) := inner at_path input in (issues, Some <$> v)
  end.

Definition type_values : list (string * QuestionType) :=
  [("multiple-choice", MultipleChoice); ("true-false", TrueFalse);
   ("short-answer", ShortAnswer)].

Definition difficulty_values : list (string * Difficulty) :=
  [("easy", Easy); ("medium", Medium); ("hard", Hard)].

(** [questionSchema = z.object({ ... })]: the six keys in the order of the
    shape; keys the shape does not name are dropped. *)
Definition questionSchema (input : JsValue) : Parsed QuestionForm :=
  match input with
  | JObject props =>
      let '(i1, v1) := z_enum type_values [Key "type"] (get_prop props "type") in
      let '(i2, v2) := z_string_min 1 "Question is required"
                         [Key "question"] (get_prop props "question") in
      let '(i3, v3) := z_optional (z_array z_string)
                         [Key "options"] (get_prop props "options") in
      let '(i4, v4) := z_string_min 1 "Correct answer is required"
                         [Key "correctAnswer"] (get_prop props "correctAnswer") in
      let '(i5, v5) := z_enum difficulty_values
                         [Key "difficulty"] (get_prop props "difficulty") in
      let '(i6, v6) := z_string_min 1 "Category is required"
                         [Key "category"] (get_prop props "category") in
      ((i1 ++ i2 ++ i3 ++ i4 ++ i5 ++ i6)%list,
       t ← v1; q ← v2; o ← v3; c ← v4; d ← v5; g ← v6;
       Some (mkQuestionForm t q o c d g))
  | _ => ([mkIssue invalid_type [] None], None)
  end.

(** What the resolver gets back: the parsed data when no issue was raised,
    the issues otherwise. *)
Inductive SafeParseReturn : Type :=
  | Success (data : QuestionForm)
  | Failure (issues : list ZodIssue).

Definition safeParse (input : JsValue) : SafeParseReturn :=
  match questionSchema input with
  | ([], Some data) => Success data
  | (issues, _) => Failure issues
  end.

(** An issue on the field [k]: its path starts with that key. *)
Definition on_field (k : string) (i : ZodIssue) : Prop :=
  head (path i) = Some (Key k).

#[global] Instance on_field_dec k i : Decision (on_field k i).
Proof. unfold on_field. apply _. Defined.

(** The issues of a result. *)
Definition issues_of (r : SafeParseReturn) : list ZodIssue :=
  match r with
  | Success _ => []
  | Failure issues => issues
  end.

(** The [options] of a candidate: missing, or an array of strings. *)
Definition js_options (o : option (list string)) : JsValue :=
  match o with
  | None => JUndefined
  | Some l => JArray (JString <$> l)
  end.

(** How many of the options are not the empty string. *)
Definition nonempty_entries (o : option (list string)) : nat :=
  length (filter (fun s : string => s <> "") (default [] o)).

(** A candidate as the form builds it. *)
Definition candidate (type0 question0 : string) (options0 : option (list string))
    (correctAnswer0 difficulty0 category0 : string) : JsValue :=
  JObject (list_to_map
    ([("type", JString type0); ("question", JString question0)] ++
     match options0 with
     | Some l => [("options", JArray (JString <$> l))]
     | None => []
     end ++
     [("correctAnswer", JString correctAnswer0);
      ("difficulty", JString difficulty0);
      ("category", JString category0)])%list).

(** [Partial<Question>]: every key may be missing ([None]). A key that is
    there carries a value of the field's type; [options] is itself optional
    in [Question], so its key may be there with the value [undefined]
    ([Some None]). *)
Record PartialQuestion : Type := mkPartial {
  p_type : option QuestionType;
  p_question : option string;
  p_options : option (option (list string));
  p_correctAnswer : option string;
  p_difficulty : option Difficulty;
  p_category : option string;
  p_id : option string;
  p_createdAt : option Date
}.

(** The object literal [{}] *)
Definition empty_partial : PartialQuestion :=
  mkPartial None None None None None None None None.

(** [{ ...q, ...updatedQuestion }]: the keys of [updatedQuestion] are copied
    over those of [q], whichever they are. *)
Definition spread (q : Question) (u : PartialQuestion) : Question :=
  {| form := {| type := default (type q) (p_type u);
                question := default (question q) (p_question u);
                options := default (options q) (p_options u);
                correctAnswer := default (correctAnswer q) (p_correctAnswer u);
                difficulty := default (difficulty q) (p_difficulty u);
                category := default (category q) (p_category u) |};
     id := default (id q) (p_id u);
     createdAt := default (createdAt q) (p_createdAt u) |}.

(** ** The zustand store (lines 29-80) *)

(** The data of [QuestionStore]; its four functions never change. *)
Record QuestionStore : Type := mkState {
  questions : list Question
}.

(** A store as [create] builds it: the current state, and how many times the
    store has called its listeners so far. *)
Record Zustand : Type := mkStore {
  getState : QuestionStore;
  notifications : nat
}.

(** zustand's [set(partial)] with a function argument: the function is
    applied to the current state, its result is merged into a new state
    object, and every listener is called. The library skips both only when
    the function hands back the very state object it was given; the three
    actions below build a new object literal each time, so they never do. *)
Definition set (partial : QuestionStore -> QuestionStore) (z : Zustand) : Zustand :=
  {| getState := partial (getState z);
     notifications := S (notifications z) |}.

(** [Number.prototype.toString] on the integer that [Date.now()] reads:
    its decimal digits. *)
Definition toString (n : Z) : string := NilZero.string_of_int (Z.to_int n).

(** Lines 39-59: the two records the store starts with; [t0] and [t1] are
    the two readings of the clock taken by [new Date()]. *)
Definition seed (t0 t1 : Date) : list Question :=
  [ {| form := {| type := MultipleChoice;
                  question := "What is the capital of France?";
                  options := Some ["London"; "Berlin"; "Paris"; "Madrid"];
                  correctAnswer := "Paris";
                  difficulty := Easy;
                  category := "Geography" |};
       id := "1";
       createdAt := t0 |};
    {| form := {| type := TrueFalse;
                  question := "The Earth is flat.";
                  options := None;
                  correctAnswer := "False";
                  difficulty := Easy;
                  category := "Science" |};
       id := "2";
       createdAt := t1 |} ].

Definition useQuestionStore (t0 t1 : Date) : Zustand :=
  {| getState := {| questions := seed t0 t1 |}; notifications := 0 |}.

(** Lines 60-70. [now] is what [Date.now()] reads and [created] what
    [new Date()] reads right after it. *)
Definition addQuestion (question0 : QuestionForm) (now : Z) (created : Date)
    (z : Zustand) : Completion * Zustand :=
  (Returns JUndefined,
   set (fun state =>
          {| questions := questions state ++
               [ {| form := question0; id := toString now; createdAt := created |} ] |}) z).

(** Lines 71-74 *)
Definition updateQuestion (id0 : string) (updatedQuestion : PartialQuestion)
    (z : Zustand) : Completion * Zustand :=
  (Returns JUndefined,
   set (fun state =>
          {| questions :=
               (fun q => if decide (id q = id0) then spread q updatedQuestion else q)
                 <$> questions state |}) z).

(** Lines 75-78 *)
Definition deleteQuestion (id0 : string) (z : Zustand) : Completion * Zustand :=
  (Returns JUndefined,
   set (fun state =>
          {| questions := filter (fun q : Question => id q <> id0) (questions state) |}) z).

(** Line 79 *)
Definition getQuestionsByCategory (category0 : string) (z : Zustand) : list Question :=
  filter (fun q : Question => category q = category0) (questions (getState z)).

(** ** What the component derives on each render (lines 123-125) *)

(** A JavaScript [Set] of strings: its elements in the order they were first
    added. [Set.prototype.add] leaves the set alone when the value is in it. *)
Definition Set_add (x : string) (s : list string) : list string :=
  if decide (x ∈ s) then s else s ++ [x].

(** [new Set(iterable)] adds the items one after the other. *)
Definition Set_new (items : list string) : list string :=
  foldl (fun s x => Set_add x s) [] items.

(** [Array.from(set)] lists the set in insertion order. *)
Definition Array_from (s : list string) : list string := s.

(** Line 123 *)
Definition categories (questions0 : list Question) : list string :=
  Array_from (Set_new ((fun q : Question => category q) <$> questions0)).

(** Lines 124-125 *)
Definition filteredQuestions (selectedCategory : string) (questions0 : list Question)
    : list Question :=
  if decide (selectedCategory = "all") then questions0
  else filter (fun q : Question => category q = selectedCategory) questions0.

(** ** The specification's vocabulary, for comparison

    What the specification of the store speaks of and the code has no
    counterpart for, kept apart from the code above: an update of a missing
    id that fails with [NotFoundError], a validator that trims. *)

(** A call that ends in a [NotFoundError]: raised, or handed back in place
    of [undefined]. *)
Definition reports_not_found (c : Completion) : Prop :=
  c = Throws "NotFoundError" \/ exists v, c = Returns v /\ v <> JUndefined.

(** [trim], on the white space of ASCII: what the specified normal form
    strips from both ends of a string. *)
Fixpoint trim_start (s : string) : string :=
  match s with
  | String a s' => if Ascii.is_space a then trim_start s' else s
  | EmptyString => EmptyString
  end.

Definition spec_trim (s : string) : string :=
  String.rev (trim_start (String.rev (trim_start s))).

(** The specified normal form of a record: its strings trimmed, no empty
    entry among its options. *)
Definition spec_normalized (r : QuestionForm) : Prop :=
  question r = spec_trim (question r) /\
  correctAnswer r = spec_trim (correctAnswer r) /\
  category r = spec_trim (category r) /\
  (forall l, options r = Some l -> "" ∉ l).

(** The ids of the collection, in order. *)
Definition ids (z : Zustand) : list string :=
  (fun q : Question => id q) <$> questions (getState z).

(** ** Sample inputs *)

(** The store as the module creates it, both seed records dated [0]. *)
Definition store0 : Zustand := useQuestionStore 0 0.

(** [{ difficulty: "hard" }] *)
Definition hard_only : PartialQuestion :=
  mkPartial None None None None (Some Hard) None None None.

(** [{ id: "9", createdAt: new Date(5) }] *)
Definition relabel : PartialQuestion :=
  mkPartial None None None None None None (Some "9") (Some 5).

(** The form as it starts (four blank options), with question, answer and
    category typed in. *)
Definition blank_options_candidate : JsValue :=
  candidate "multiple-choice" "Q" (Some [""; ""; ""; ""]) "A" "medium" "C".

(** A blank question, a padded category, one blank option. *)
Definition padded_candidate : JsValue :=
  candidate "multiple-choice" " " (Some [""; "x"]) "A" "medium" "  Math ".

(** [{ type: "short-answer", question: "2+2?", correctAnswer: "4", ... }] *)
Definition sample_form : QuestionForm :=
  mkQuestionForm ShortAnswer "2+2?" None "4" Easy "Math".

(** The store after one submission at clock reading [1700000000000]. *)
Definition store1 : Zustand :=
  snd (addQuestion sample_form 1700000000000 1700000000000 store0).

(** ** The rest of the component (lines 82-138) *)

(** The literals of the two enumerations, back from the constructors. *)
Definition type_name (t : QuestionType) : string :=
  match t with
  | MultipleChoice => "multiple-choice"
  | TrueFalse => "true-false"
  | ShortAnswer => "short-answer"
  end.

Definition difficulty_name (d : Difficulty) : string :=
  match d with
  | Easy => "easy"
  | Medium => "medium"
  | Hard => "hard"
  end.

(** The parsed data as the JavaScript object it is. *)
Definition js_of_form (r : QuestionForm) : JsValue :=
  candidate (type_name (type r)) (question r) (options r) (correctAnswer r)
            (difficulty_name (difficulty r)) (category r).

(** The keys of the shape of [questionSchema]. *)
Definition shape_keys : list string :=
  ["type"; "question"; "options"; "correctAnswer"; "difficulty"; "category"].

(** The three keys declared [z.string().min(1, msg)], each with its message. *)
Definition required_text : list (string * string) :=
  [("question", "Question is required");
   ("correctAnswer", "Correct answer is required");
   ("category", "Category is required")].

(** Lines 127-138 *)
Definition getDifficultyColor (difficulty0 : string) : string :=
  if decide (difficulty0 = "easy") then "bg-green-100 text-green-800"
  else if decide (difficulty0 = "medium") then "bg-yellow-100 text-yellow-800"
  else if decide (difficulty0 = "hard") then "bg-red-100 text-red-800"
  else "bg-gray-100 text-gray-800".

(** A JavaScript array of strings in which a slot may read [undefined]
    ([None]): writing past the end of an array leaves holes between the old
    end and the new item, and a hole reads [undefined]. *)
Definition array_assign (a : list (option string)) (index : nat) (value : string)
    : list (option string) :=
  if decide (index < length a)%nat then <[index := Some value]> a
  else (a ++ replicate (index - length a) None ++ [Some value])%list.

(** Lines 117-121: [options] is what [watch("options")] reads, [undefined]
    ([None]) or an array; the result is the array handed to [setValue]. *)
Definition updateOption (options0 : option (list (option string)))
    (index : nat) (value : string) : list (option string) :=
  let newOptions := default [] options0 in
  array_assign newOptions index value.

(** An array of the form as the schema reads it: a hole reads [undefined]. *)
Definition js_of_slots (a : list (option string)) : JsValue :=
  JArray ((fun slot => match slot with Some s => JString s | None => JUndefined end) <$> a).

(** The component's state: the store and the values the form holds. *)
Record Component : Type := mkComponent {
  store : Zustand;
  formValues : JsValue
}.

(** Lines 107-114: the values [reset] puts back into the form. *)
Definition reset_values : JsValue :=
  candidate "multiple-choice" "" (Some [""; ""; ""; ""]) "" "medium" "".

(** Lines 95-99: [defaultValues]. *)
Definition defaultValues : JsValue :=
  JObject (list_to_map
    [("type", JString "multiple-choice");
     ("options", JArray (JString <$> [""; ""; ""; ""]));
     ("difficulty", JString "medium")]).

(** Lines 105-115 *)
Definition onSubmit (data : QuestionForm) (now : Z) (created : Date)
    (c : Component) : Component :=
  {| store := snd (addQuestion data now created (store c));
     formValues := reset_values |}.

(** [handleSubmit(onSubmit)] with the resolver [zodResolver(questionSchema)]
    (lines 93-94, 161): the form's values go through the schema; [onSubmit]
    is called with the parsed data when there is no issue, and is not called
    otherwise (the issues become the form's errors). *)
Definition handleSubmit (now : Z) (created : Date) (c : Component)
    : Component * list ZodIssue :=
  match safeParse (formValues c) with
  | Success data => (onSubmit data now created c, [])
  | Failure issues => (c, issues)
  end.

(** What a user can do to the component: type into the form (any values),
    submit it, or press the delete button of a record that is shown (lines
    276-278). The component takes [addQuestion] and [deleteQuestion] from
    the store (line 83) and nothing else that writes. *)
Inductive ui_step : Component -> Component -> Prop :=
  | ui_edit (c : Component) (v : JsValue) :
      ui_step c {| store := store c; formValues := v |}
  | ui_submit (c : Component) (now : Z) (created : Date) :
      ui_step c (fst (handleSubmit now created c))
  | ui_delete (c : Component) (selectedCategory : string) (q : Question) :
      q ∈ filteredQuestions selectedCategory (questions (getState (store c))) ->
      ui_step c {| store := snd (deleteQuestion (id q) (store c));
                   formValues := formValues c |}.

(** The component as it is first rendered. *)
Definition initial (t0 t1 : Date) : Component :=
  {| store := useQuestionStore t0 t1; formValues := defaultValues |}.

(** The states a user can bring the component to. *)
Definition ui_reachable (c : Component) : Prop :=
  exists t0 t1, rtc ui_step (initial t0 t1) c.

(** What the schema asks of the three texts of a record. *)
Definition texts_filled (r : QuestionForm) : Prop :=
  question r <> "" /\ correctAnswer r <> "" /\ category r <> "".

(** A string that is none of the entries of a list written out. *)
Ltac absent_id :=
  let H := fresh in
  intros H; simpl in H;
  repeat (apply elem_of_cons in H as [H|H]; [discriminate H|]);
  by apply elem_of_nil in H.

(** * Properties of the schema *)

Section Schema.

Implicit Types (v : JsValue) (p : list PathSeg) (props : gmap string JsValue).

Lemma nonempty_length (s : string) : s <> "" <-> ~ (String.length s < 1)%nat.
Proof.
  destruct s; simpl; split.
  - by intros H.
  - intros H. exfalso. apply H. lia.
  - intros _. lia.
  - done.
Qed.

(** [z.string().min(1, msg)] raises no issue exactly on the strings that
    are not empty, hands them back as they are, and raises its issues at
    its own path. *)
Lemma z_string_min_inv (msg : string) p v (s : string) :
  z_string_min 1 msg p v = ([], Some s) <-> v = JString s /\ s <> "".
Proof.
  unfold z_string_min. split.
  - destruct v; try done. case_decide; [done|].
    intros [= ->]. split; [done|]. by apply nonempty_length.
  - intros [-> Hs]. by rewrite decide_False by by apply nonempty_length.
Qed.

Lemma z_string_min_path (msg : string) p v :
  Forall (fun i => path i = p) (fst (z_string_min 1 msg p v)).
Proof.
  unfold z_string_min. destruct v; simpl; try (by repeat constructor).
  case_decide; by repeat constructor.
Qed.

Lemma z_enum_inv {A} (values : list (string * A)) p v (a : A) :
  z_enum values p v = ([], Some a) ->
  exists s, v = JString s /\ (s, a) ∈ values.
Proof.
  unfold z_enum. destruct v; try done.
  destruct (_ !! s) as [a'|] eqn:E; [|done].
  intros [= ->]. exists s. split; [done|]. by apply elem_of_list_to_map_2.
Qed.

Lemma z_enum_path {A} (values : list (string * A)) p v :
  Forall (fun i => path i = p) (fst (z_enum values p v)).
Proof.
  unfold z_enum. destruct v; simpl; try (by repeat constructor).
  destruct (_ !! s); by repeat constructor.
Qed.

(** [z.array(z.string())] on an array of strings: no issue, the strings
    as they are; and nothing else parses to a list without an issue. *)
Lemma z_array_strings (f : nat -> JsValue -> Parsed string) (l : list string) :
  (forall i s, f i (JString s) = ([], Some s)) ->
  concat (fst <$> imap f (JString <$> l)) = [] /\
  mapM snd (imap f (JString <$> l)) = Some l.
Proof.
  revert f. induction l as [|s l IH]; intros f Hf; [done|].
  destruct (IH (f ∘ S)) as [IH1 IH2]; [intros i s'; apply Hf|].
  rewrite fmap_cons, imap_cons, fmap_cons, Hf. simpl.
  rewrite IH1. split; [done|]. by rewrite IH2.
Qed.

Lemma z_array_strings_inv (f : nat -> JsValue -> Parsed string)
    (items : list JsValue) (l : list string) :
  (forall i x s, snd (f i x) = Some s -> x = JString s) ->
  mapM snd (imap f items) = Some l ->
  items = JString <$> l.
Proof.
  revert f l. induction items as [|x items IH]; intros f l Hf.
  - by intros [= <-].
  - rewrite imap_cons. simpl. intros H.
    destruct (snd (f 0%nat x)) as [s|] eqn:Es; [|done].
    simpl in H.
    destruct (mapM snd _) as [l'|] eqn:El; [|done].
    injection H as <-. rewrite fmap_cons.
    rewrite (Hf _ _ _ Es). f_equal.
    apply (IH (f ∘ S)); [|done]. intros i y t. apply Hf.
Qed.

Lemma z_string_inv p v (s : string) : snd (z_string p v) = Some s -> v = JString s.
Proof. destruct v; simpl; try done. by intros [= ->]. Qed.

Lemma z_options_ok p (o : option (list string)) :
  z_optional (z_array z_string) p (js_options o) = ([], Some o).
Proof.
  destruct o as [l|]; [|done]. simpl.
  by destruct (z_array_strings
                 (fun i item => z_string (p ++ [Index i])%list item) l) as [-> ->].
Qed.

Lemma z_options_inv p v (o : option (list string)) :
  z_optional (z_array z_string) p v = ([], Some o) -> v = js_options o.
Proof.
  destruct v; simpl; try done.
  - by intros [= <-].
  - destruct (mapM snd _) as [l|] eqn:El; simpl; [|done].
    intros [= _ <-]. simpl. f_equal.
    eapply z_array_strings_inv; [|done]. intros i x s. apply z_string_inv.
Qed.

Lemma z_enum_ok {A} (values : list (string * A)) p (s : string) (a : A) :
  NoDup (fst <$> values) -> (s, a) ∈ values ->
  z_enum values p (JString s) = ([], Some a).
Proof.
  intros Hnd Hin. unfold z_enum.
  by rewrite (elem_of_list_to_map_1 (M := gmap string) values s a Hnd Hin).
Qed.

Lemma type_values_NoDup : NoDup (fst <$> type_values).
Proof. simpl. repeat (constructor; [absent_id|]). constructor. Qed.

Lemma difficulty_values_NoDup : NoDup (fst <$> difficulty_values).
Proof. simpl. repeat (constructor; [absent_id|]). constructor. Qed.

(** The issues handed back are the issues of the six keys, in order. *)
Lemma issues_of_safeParse props :
  issues_of (safeParse (JObject props)) =
    (fst (z_enum type_values [Key "type"] (get_prop props "type")) ++
     fst (z_string_min 1 "Question is required"
            [Key "question"] (get_prop props "question")) ++
     fst (z_optional (z_array z_string) [Key "options"] (get_prop props "options")) ++
     fst (z_string_min 1 "Correct answer is required"
            [Key "correctAnswer"] (get_prop props "correctAnswer")) ++
     fst (z_enum difficulty_values [Key "difficulty"] (get_prop props "difficulty")) ++
     fst (z_string_min 1 "Category is required"
            [Key "category"] (get_prop props "category")))%list.
Proof.
  unfold safeParse, questionSchema.
  destruct (z_enum type_values _ _) as [i1 v1].
  destruct (z_string_min 1 "Question is required" _ _) as [i2 v2].
  destruct (z_optional _ _ _) as [i3 v3].
  destruct (z_string_min 1 "Correct answer is required" _ _) as [i4 v4].
  destruct (z_enum difficulty_values _ _) as [i5 v5].
  destruct (z_string_min 1 "Category is required" _ _) as [i6 v6].
  simpl. destruct (i1 ++ i2 ++ i3 ++ i4 ++ i5 ++ i6)%list; [|done].
  by destruct (_ ≫= _).
Qed.

(** A record is handed back only for a candidate that carries it, field
    by field. *)
Lemma safeParse_success_inv props (r : QuestionForm) :
  safeParse (JObject props) = Success r ->
  z_enum type_values [Key "type"] (get_prop props "type") = ([], Some (type r)) /\
  z_string_min 1 "Question is required" [Key "question"] (get_prop props "question")
    = ([], Some (question r)) /\
  z_optional (z_array z_string) [Key "options"] (get_prop props "options")
    = ([], Some (options r)) /\
  z_string_min 1 "Correct answer is required"
    [Key "correctAnswer"] (get_prop props "correctAnswer")
    = ([], Some (correctAnswer r)) /\
  z_enum difficulty_values [Key "difficulty"] (get_prop props "difficulty")
    = ([], Some (difficulty r)) /\
  z_string_min 1 "Category is required" [Key "category"] (get_prop props "category")
    = ([], Some (category r)).
Proof.
  unfold safeParse, questionSchema.
  destruct (z_enum type_values _ _) as [i1 v1].
  destruct (z_string_min 1 "Question is required" _ _) as [i2 v2].
  destruct (z_optional _ _ _) as [i3 v3].
  destruct (z_string_min 1 "Correct answer is required" _ _) as [i4 v4].
  destruct (z_enum difficulty_values _ _) as [i5 v5].
  destruct (z_string_min 1 "Category is required" _ _) as [i6 v6].
  destruct (i1 ++ i2 ++ i3 ++ i4 ++ i5 ++ i6)%list eqn:Ei; [|done].
  repeat (apply app_eq_nil in Ei as [-> Ei]). subst i6.
  destruct v1, v2, v3, v4, v5, v6; simpl; try done.
  by intros [= <-].
Qed.

(** C4, as specified: a multiple-choice candidate with fewer than two
    options that are not empty would be refused with a violation on
    [options]. The form as it starts, four blank options, is accepted once
    question, answer and category are typed in. *)
Lemma safeParse_accepts_blank_options :
  nonempty_entries (Some [""; ""; ""; ""]) = 0%nat /\
  safeParse blank_options_candidate
    = Success (mkQuestionForm MultipleChoice "Q" (Some [""; ""; ""; ""]) "A" Medium "C") /\
  ~ (exists i, i ∈ issues_of (safeParse blank_options_candidate) /\
               on_field "options" i).
Proof.
  split; [reflexivity|].
  assert (H : safeParse blank_options_candidate
              = Success (mkQuestionForm MultipleChoice "Q"
                           (Some [""; ""; ""; ""]) "A" Medium "C"))
    by by vm_compute.
  split; [exact H|]. rewrite H. simpl. intros (i & Hi & _).
  by apply elem_of_nil in Hi.
Qed.

(** C4, amended: for every candidate of kind multiple-choice whose options
    are missing or an array of strings with fewer than 2 entries that are
    not empty, the schema raises no violation on [options]; when the
    question, the answer and the category are strings that are not empty
    and the difficulty is one of the three, the candidate is accepted and
    handed back with its options as they were given. *)
Theorem safeParse_ignores_options_count props (opts : option (list string)) :
  get_prop props "type" = JString "multiple-choice" ->
  get_prop props "options" = js_options opts ->
  (nonempty_entries opts < 2)%nat ->
  (forall i, i ∈ issues_of (safeParse (JObject props)) -> ~ on_field "options" i) /\
  (forall (q a g d : string) (dv : Difficulty),
     get_prop props "question" = JString q -> q <> "" ->
     get_prop props "correctAnswer" = JString a -> a <> "" ->
     get_prop props "category" = JString g -> g <> "" ->
     get_prop props "difficulty" = JString d -> (d, dv) ∈ difficulty_values ->
     safeParse (JObject props)
       = Success (mkQuestionForm MultipleChoice q opts a dv g)).
Proof.
  intros Htype Hopts _. split.
  - intros i. rewrite issues_of_safeParse, Hopts, z_options_ok. simpl.
    rewrite !elem_of_app. unfold on_field.
    pose proof (z_enum_path type_values [Key "type"] (get_prop props "type")) as H1.
    pose proof (z_string_min_path "Question is required" [Key "question"]
                  (get_prop props "question")) as H2.
    pose proof (z_string_min_path "Correct answer is required" [Key "correctAnswer"]
                  (get_prop props "correctAnswer")) as H4.
    pose proof (z_enum_path difficulty_values [Key "difficulty"]
                  (get_prop props "difficulty")) as H5.
    pose proof (z_string_min_path "Category is required" [Key "category"]
                  (get_prop props "category")) as H6.
    rewrite Forall_forall in H1, H2, H4, H5, H6.
    intros [Hi|[Hi|[Hi|[Hi|Hi]]]] Hon;
      [apply H1 in Hi|apply H2 in Hi|apply H4 in Hi|apply H5 in Hi|apply H6 in Hi];
      rewrite Hi in Hon; discriminate Hon.
  - intros q a g d dv Hq Hq' Ha Ha' Hg Hg' Hd Hd'.
    unfold safeParse, questionSchema.
    rewrite Htype, Hq, Hopts, Ha, Hd, Hg, z_options_ok.
    rewrite (z_enum_ok type_values _ "multiple-choice" MultipleChoice
               type_values_NoDup) by apply list_elem_of_here.
    rewrite (z_enum_ok difficulty_values _ d dv difficulty_values_NoDup Hd').
    rewrite (proj2 (z_string_min_inv _ _ _ q)) by done.
    rewrite (proj2 (z_string_min_inv _ _ _ a)) by done.
    by rewrite (proj2 (z_string_min_inv _ _ _ g)) by done.
Qed.

(** C4 on the form with its four blank options. *)
Lemma safeParse_ignores_options_count_witness :
  (nonempty_entries (Some [""; ""; ""; ""]) < 2)%nat /\
  (forall i, i ∈ issues_of (safeParse blank_options_candidate) ->
             ~ on_field "options" i) /\
  safeParse blank_options_candidate
    = Success (mkQuestionForm MultipleChoice "Q" (Some [""; ""; ""; ""]) "A" Medium "C").
Proof.
  assert (Hfew : (nonempty_entries (Some [""; ""; ""; ""]) < 2)%nat)
    by (vm_compute; lia).
  split; [exact Hfew|].
  unfold blank_options_candidate, candidate.
  destruct (safeParse_ignores_options_count
              (list_to_map
                 [("type", JString "multiple-choice"); ("question", JString "Q");
                  ("options", JArray (JString <$> [""; ""; ""; ""]));
                  ("correctAnswer", JString "A"); ("difficulty", JString "medium");
                  ("category", JString "C")])
              (Some [""; ""; ""; ""]))
    as [Hno Hacc].
  - vm_compute; reflexivity.
  - vm_compute; reflexivity.
  - exact Hfew.
  - split; [exact Hno|].
    apply (Hacc "Q" "A" "C" "medium" Medium);
      try (vm_compute; reflexivity); try discriminate.
    apply list_elem_of_further, list_elem_of_here.
Defined.

(** C5, as specified: an accepted record would come back trimmed, without
    empty options, and so with a question that is not empty once trimmed.
    A candidate with a blank question, a padded category and a blank
    option is accepted and comes back as it went in. *)
Lemma safeParse_keeps_padding :
  safeParse padded_candidate
    = Success (mkQuestionForm MultipleChoice " " (Some [""; "x"]) "A" Medium "  Math ") /\
  spec_trim " " = "" /\
  spec_trim "  Math " = "Math" /\
  ~ (forall r, safeParse padded_candidate = Success r ->
               spec_normalized r /\ spec_trim (question r) <> "").
Proof.
  assert (H : safeParse padded_candidate
              = Success (mkQuestionForm MultipleChoice " " (Some [""; "x"])
                           "A" Medium "  Math "))
    by by vm_compute.
  split; [exact H|]. do 2 (split; [reflexivity|]).
  intros Hall. destruct (Hall _ H) as [_ Hq]. by apply Hq.
Qed.

(** C5, amended: the schema does not normalize. For every candidate that
    it accepts, the record handed back carries the candidate's fields as
    they were given: the strings untrimmed, the options with every entry,
    the empty ones too; question, answer and category are not empty as
    given (they may be white space). *)
Theorem safeParse_returns_input props (r : QuestionForm) :
  safeParse (JObject props) = Success r ->
  (exists s, get_prop props "type" = JString s /\ (s, type r) ∈ type_values) /\
  get_prop props "question" = JString (question r) /\
  get_prop props "options" = js_options (options r) /\
  get_prop props "correctAnswer" = JString (correctAnswer r) /\
  (exists s, get_prop props "difficulty" = JString s /\
             (s, difficulty r) ∈ difficulty_values) /\
  get_prop props "category" = JString (category r) /\
  question r <> "" /\ correctAnswer r <> "" /\ category r <> "".
Proof.
  intros (Ht & Hq & Ho & Ha & Hd & Hg)%safeParse_success_inv.
  apply z_enum_inv in Ht, Hd. apply z_options_inv in Ho.
  apply z_string_min_inv in Hq as [Hq Hq'], Ha as [Ha Ha'], Hg as [Hg Hg'].
  done.
Qed.

(** C5 on the padded candidate: its options come back with the blank one. *)
Lemma safeParse_returns_input_witness :
  safeParse padded_candidate
    = Success (mkQuestionForm MultipleChoice " " (Some [""; "x"]) "A" Medium "  Math ") /\
  get_prop (list_to_map
              [("type", JString "multiple-choice"); ("question", JString " ");
               ("options", JArray (JString <$> [""; "x"]));
               ("correctAnswer", JString "A"); ("difficulty", JString "medium");
               ("category", JString "  Math ")]) "options"
    = js_options (Some [""; "x"]).
Proof.
  assert (H : safeParse padded_candidate
              = Success (mkQuestionForm MultipleChoice " " (Some [""; "x"])
                           "A" Medium "  Math "))
    by (vm_compute; reflexivity).
  split; [exact H|].
  exact (proj1 (proj2 (proj2 (safeParse_returns_input _ _ H)))).
Defined.

End Schema.

(** * Properties of the store *)

Section Store.

Implicit Types (z : Zustand) (q r : Question) (u : PartialQuestion).
Implicit Types (l : list Question).

Lemma spread_empty q : spread q empty_partial = q.
Proof. by destruct q as [[] ? ?]. Qed.

Lemma map_update_absent (id0 : string) u l :
  id0 ∉ ((fun q => id q) <$> l) ->
  (fun q => if decide (id q = id0) then spread q u else q) <$> l = l.
Proof.
  induction l as [|q l IH]; intros Habs; [done|].
  rewrite fmap_cons in Habs. apply not_elem_of_cons in Habs as [Hne Hrest].
  rewrite fmap_cons, IH by done.
  case_decide; congruence.
Qed.

Lemma filter_other_absent (id0 : string) l :
  id0 ∉ ((fun q => id q) <$> l) ->
  filter (fun q => id q <> id0) l = l.
Proof.
  induction l as [|q l IH]; intros Habs; [done|].
  rewrite fmap_cons in Habs. apply not_elem_of_cons in Habs as [Hne Hrest].
  rewrite filter_cons_True by congruence. by rewrite IH.
Qed.

Lemma filter_other_present (id0 : string) l :
  id0 ∈ ((fun q => id q) <$> l) ->
  (length (filter (fun q => id q <> id0) l) < length l)%nat.
Proof.
  intros (q & Hid & Hin)%list_elem_of_fmap.
  eapply length_filter_lt; [exact Hin|]. intros Hne. by apply Hne.
Qed.

Lemma sublist_filter_greatest (P : Question -> Prop) `{!forall q, Decision (P q)} l k :
  k `sublist_of` l -> Forall P k -> k `sublist_of` filter P l.
Proof.
  induction 1 as [|x k l _ IH|x k l _ IH]; intros HP.
  - constructor.
  - apply Forall_cons in HP as [Hx Hk].
    rewrite filter_cons_True by done. constructor. by apply IH.
  - rewrite filter_cons. case_decide; [constructor|]; by apply IH.
Qed.

(** C1, as specified: the update of an id that is not in the collection
    would end in a [NotFoundError]. It does not: on the store as created,
    [updateQuestion("3", { difficulty: "hard" })] returns [undefined]. *)
Lemma updateQuestion_absent_id_no_error :
  ("3" ∉ ids store0) /\
  fst (updateQuestion "3" hard_only store0) = Returns JUndefined /\
  ~ reports_not_found (fst (updateQuestion "3" hard_only store0)).
Proof.
  split; [|split].
  - by absent_id.
  - reflexivity.
  - intros [H | (v & H & Hv)]; simpl in H; [discriminate|].
    injection H as <-. by apply Hv.
Qed.

(** C1, amended: for every store state and every id that is not in the
    collection, [updateQuestion] returns [undefined] and raises nothing (it
    reports no [NotFoundError]), and the collection is left unchanged. *)
Theorem updateQuestion_absent_id z (id0 : string) u :
  id0 ∉ ids z ->
  fst (updateQuestion id0 u z) = Returns JUndefined /\
  ~ reports_not_found (fst (updateQuestion id0 u z)) /\
  questions (getState (snd (updateQuestion id0 u z))) = questions (getState z).
Proof.
  intros Habs. split; [done|split].
  - intros [H | (v & H & Hv)]; simpl in H; [discriminate|].
    injection H as <-. by apply Hv.
  - simpl. by apply map_update_absent.
Qed.

(** C1 on the store as created, for the id ["3"]. *)
Lemma updateQuestion_absent_id_witness :
  ("3" ∉ ids store0) /\
  fst (updateQuestion "3" hard_only store0) = Returns JUndefined /\
  ~ reports_not_found (fst (updateQuestion "3" hard_only store0)) /\
  questions (getState (snd (updateQuestion "3" hard_only store0))) =
    questions (getState store0).
Proof.
  assert (Habs : "3" ∉ ids store0) by absent_id.
  split; [exact Habs|]. exact (updateQuestion_absent_id store0 "3" hard_only Habs).
Defined.

(** C2, as specified: [id] and [createdAt] of the updated record would
    stay as they were even when the argument names them. They do not:
    [updateQuestion("1", { id: "9", createdAt: new Date(5) })] on the store
    as created leaves the first record with id ["9"] and date [5]. *)
Lemma updateQuestion_overwrites_id :
  (fun q : Question => (id q, createdAt q)) <$> questions (getState store0)
    = [("1", 0); ("2", 0)] /\
  (fun q : Question => (id q, createdAt q)) <$>
      questions (getState (snd (updateQuestion "1" relabel store0)))
    = [("9", 5); ("2", 0)] /\
  ~ (forall (k : nat) q q',
       questions (getState store0) !! k = Some q -> id q = "1" ->
       questions (getState (snd (updateQuestion "1" relabel store0))) !! k = Some q' ->
       id q' = id q /\ createdAt q' = createdAt q).
Proof.
  split; [reflexivity|split; [reflexivity|]].
  intros H. specialize (H 0%nat _ _ eq_refl eq_refl eq_refl) as [H _].
  discriminate H.
Qed.

(** C2, amended: for every store state, every id carried by the record at
    position [k] and every partial-fields argument, [updateQuestion] keeps
    the length of the collection and puts at position [k] the shallow
    merge of the argument onto that record: every field the argument
    names, [id] and [createdAt] included, takes the argument's value, every
    field it does not name stays as it was (so [id] and [createdAt] stay
    when the argument names neither), and every record with another id
    stays where it was, unchanged. *)
Theorem updateQuestion_merges z (id0 : string) u (k : nat) q :
  questions (getState z) !! k = Some q ->
  id q = id0 ->
  length (questions (getState (snd (updateQuestion id0 u z))))
    = length (questions (getState z)) /\
  (exists q',
     questions (getState (snd (updateQuestion id0 u z))) !! k = Some q' /\
     type q' = default (type q) (p_type u) /\
     question q' = default (question q) (p_question u) /\
     options q' = default (options q) (p_options u) /\
     correctAnswer q' = default (correctAnswer q) (p_correctAnswer u) /\
     difficulty q' = default (difficulty q) (p_difficulty u) /\
     category q' = default (category q) (p_category u) /\
     id q' = default (id q) (p_id u) /\
     createdAt q' = default (createdAt q) (p_createdAt u) /\
     (p_id u = None -> p_createdAt u = None ->
      id q' = id q /\ createdAt q' = createdAt q)) /\
  (forall (j : nat) r,
     questions (getState z) !! j = Some r -> id r <> id0 ->
     questions (getState (snd (updateQuestion id0 u z))) !! j = Some r).
Proof.
  intros Hk Hid. simpl. split; [by rewrite length_fmap|split].
  - exists (spread q u). rewrite list_lookup_fmap, Hk. simpl.
    rewrite decide_True by done.
    do 9 (split; [done|]). intros Hi Hc. by rewrite Hi, Hc.
  - intros j r Hj Hne. rewrite list_lookup_fmap, Hj. simpl.
    by rewrite decide_False.
Qed.

(** C2 on the store as created: [{ difficulty: "hard" }] onto the record
    with id ["1"]. *)
Lemma updateQuestion_merges_witness :
  questions (getState store0) !! 0%nat = head (seed 0 0) /\
  exists q',
    questions (getState (snd (updateQuestion "1" hard_only store0))) !! 0%nat = Some q' /\
    difficulty q' = Hard /\ id q' = "1" /\ createdAt q' = 0 /\
    category q' = "Geography".
Proof.
  split; [reflexivity|].
  destruct (updateQuestion_merges store0 "1" hard_only 0%nat _ eq_refl eq_refl)
    as (_ & (q' & Hq' & _ & _ & _ & _ & Hd & Hg & Hi & Hc & _) & _).
  exists q'. repeat split; assumption.
Defined.

(** C3, as specified: [deleteQuestion] would return [false] for an id
    that is not in the collection and [true] after a removal, and would
    not notify in the first case. It returns [undefined] in both, and the
    listeners are called in both. *)
Lemma deleteQuestion_returns_no_boolean :
  ("3" ∉ ids store0) /\
  fst (deleteQuestion "3" store0) = Returns JUndefined /\
  notifications (snd (deleteQuestion "3" store0)) = S (notifications store0) /\
  ~ (fst (deleteQuestion "3" store0) = Returns (JBool false) /\
     notifications (snd (deleteQuestion "3" store0)) = notifications store0) /\
  ("1" ∈ ids store0) /\
  fst (deleteQuestion "1" store0) <> Returns (JBool true).
Proof.
  repeat split; try done.
  - by absent_id.
  - intros [H _]. discriminate H.
  - apply list_elem_of_here.
Qed.

(** C3, amended: for every store state and every id, [deleteQuestion]
    returns [undefined] (no boolean), whether or not a record was removed,
    and the listeners of the store are called once in both cases. When the
    id is not in the collection the collection and its length stay as they
    were; when it is, the collection gets shorter. *)
Theorem deleteQuestion_returns_undefined z (id0 : string) :
  fst (deleteQuestion id0 z) = Returns JUndefined /\
  notifications (snd (deleteQuestion id0 z)) = S (notifications z) /\
  (id0 ∉ ids z ->
     questions (getState (snd (deleteQuestion id0 z))) = questions (getState z) /\
     length (questions (getState (snd (deleteQuestion id0 z))))
       = length (questions (getState z))) /\
  (id0 ∈ ids z ->
     (length (questions (getState (snd (deleteQuestion id0 z))))
        < length (questions (getState z)))%nat).
Proof.
  repeat split; simpl.
  - by apply filter_other_absent.
  - by rewrite filter_other_absent.
  - by apply filter_other_present.
Qed.

(** C9: for every store state and every id, after [deleteQuestion] no
    record with that id is left, however many carried it, every record
    with another id is still there, and what is left is the records of
    the old collection in their old order: a subsequence of it, and the
    greatest one without that id. *)
Theorem deleteQuestion_removes_all z (id0 : string) :
  (id0 ∉ ids (snd (deleteQuestion id0 z))) /\
  (forall q, q ∈ questions (getState z) -> id q <> id0 ->
             q ∈ questions (getState (snd (deleteQuestion id0 z)))) /\
  questions (getState (snd (deleteQuestion id0 z)))
    `sublist_of` questions (getState z) /\
  (forall l, l `sublist_of` questions (getState z) ->
             Forall (fun q => id q <> id0) l ->
             l `sublist_of` questions (getState (snd (deleteQuestion id0 z)))).
Proof.
  unfold ids; simpl. repeat split.
  - intros (q & Hid & [Hne _]%list_elem_of_filter)%list_elem_of_fmap. by apply Hne.
  - intros q Hin Hne. by apply list_elem_of_filter.
  - apply sublist_filter.
  - intros l. apply sublist_filter_greatest.
Qed.

(** C10: for every store state and every id, [updateQuestion] with the
    empty object [{}] leaves the collection as it was: the same records
    at the same positions, and so the same length. *)
Theorem updateQuestion_empty z (id0 : string) :
  questions (getState (snd (updateQuestion id0 empty_partial z)))
    = questions (getState z) /\
  length (questions (getState (snd (updateQuestion id0 empty_partial z))))
    = length (questions (getState z)) /\
  (forall k : nat,
     questions (getState (snd (updateQuestion id0 empty_partial z))) !! k
       = questions (getState z) !! k).
Proof.
  assert (H : questions (getState (snd (updateQuestion id0 empty_partial z)))
              = questions (getState z)).
  { simpl. induction (questions (getState z)) as [|q l IH]; [done|].
    rewrite fmap_cons, IH. case_decide; by rewrite ?spread_empty. }
  by rewrite H.
Qed.

(** Two clock readings print alike only when they are the same. *)
Lemma toString_inj (a b : Z) : toString a = toString b -> a = b.
Proof.
  unfold toString. intros H.
  assert (Hnil : forall n : Z,
             NilZero.int_of_string (NilZero.string_of_int (Z.to_int n))
             = Some (Z.to_int n)).
  { intros n. apply NilZero.isi; destruct n; simpl; try discriminate;
      intros [= Hp]; by apply DecimalPos.Unsigned.to_uint_nonnil in Hp. }
  pose proof (Hnil a) as Ha. rewrite H, Hnil in Ha.
  injection Ha as Ha.
  by rewrite <- (DecimalZ.of_to a), <- (DecimalZ.of_to b), Ha.
Qed.

(** C7, as specified: the id given to the new entry would differ from the
    id of every record already in the collection. Two submissions at the
    same clock reading get the same id. *)
Lemma addQuestion_id_not_fresh :
  ids store1 = ["1"; "2"; "1700000000000"] /\
  ids (snd (addQuestion sample_form 1700000000000 1700000000000 store1))
    = ["1"; "2"; "1700000000000"; "1700000000000"] /\
  ~ (forall q,
       last (questions (getState
               (snd (addQuestion sample_form 1700000000000 1700000000000 store1))))
         = Some q ->
       id q ∉ ids store1).
Proof.
  split; [reflexivity|split; [reflexivity|]].
  intros H. apply (H _ eq_refl). simpl.
  do 2 apply list_elem_of_further. apply list_elem_of_here.
Qed.

(** C7, amended: for every store state and every input record,
    [addQuestion] appends exactly one entry at the end of the collection
    (the length grows by exactly 1, every entry already there stays in
    place, unchanged), whether or not the id collides; the new entry carries
    the input's fields and, as id, the decimal string of the clock reading
    [Date.now()], which is the id of no other clock reading. That id differs
    from the id of every record already in the collection exactly when none
    of them carries that string; it does when every id in the collection is
    the decimal string of another clock reading. *)
Theorem addQuestion_appends z (f : QuestionForm) (now : Z) (created : Date) :
  exists q,
    questions (getState (snd (addQuestion f now created z)))
      = (questions (getState z) ++ [q])%list /\
    length (questions (getState (snd (addQuestion f now created z))))
      = S (length (questions (getState z))) /\
    (forall (k : nat) r,
       questions (getState z) !! k = Some r ->
       questions (getState (snd (addQuestion f now created z))) !! k = Some r) /\
    form q = f /\ id q = toString now /\ createdAt q = created /\
    (forall t : Z, t <> now -> id q <> toString t) /\
    (id q ∉ ids z <->
     forall r, r ∈ questions (getState z) -> id r <> toString now) /\
    (Forall (fun r : Question => exists t : Z, id r = toString t /\ t <> now)
            (questions (getState z)) ->
     id q ∉ ids z).
Proof.
  eexists. split; [reflexivity|]. simpl.
  split; [rewrite length_app; simpl; lia|].
  split; [intros k r Hk; by apply lookup_app_l_Some|].
  do 3 (split; [done|]).
  split; [intros t Hne Heq; apply Hne; symmetry; by apply toString_inj|].
  unfold ids. rewrite list_elem_of_fmap. split.
  - split.
    + intros Hno r Hr Heq. apply Hno. by exists r.
    + intros Hall (r & Heq & Hr). by apply (Hall r).
  - intros Hall (r & Heq & Hr). rewrite Forall_forall in Hall.
    destruct (Hall r Hr) as (t & Ht & Hne). apply Hne, toString_inj. congruence.
Qed.

(** C7 on the store as created, at clock reading [1700000000000]: the two
    ids there are the decimal strings of [1] and [2]. *)
Lemma addQuestion_appends_witness :
  exists q,
    questions (getState store1) = (questions (getState store0) ++ [q])%list /\
    id q = "1700000000000" /\ id q ∉ ids store0.
Proof.
  destruct (addQuestion_appends store0 sample_form 1700000000000 1700000000000)
    as (q & Hq & _ & _ & _ & Hid & _ & _ & _ & Hnew).
  exists q. split; [exact Hq|]. split; [exact Hid|]. apply Hnew.
  repeat constructor.
  - exists 1. split; [reflexivity|discriminate].
  - exists 2. split; [reflexivity|discriminate].
Defined.

End Store.

(** * Properties of the derived views *)

Section Views.

Implicit Types (z : Zustand) (q : Question) (l : list Question).

Lemma Set_fold_elem_of (acc items : list string) (x : string) :
  x ∈ foldl (fun s y => Set_add y s) acc items <-> x ∈ acc \/ x ∈ items.
Proof.
  revert acc. induction items as [|y items IH]; intros acc; simpl.
  - rewrite elem_of_nil. tauto.
  - rewrite IH, elem_of_cons. unfold Set_add. case_decide.
    + split; [tauto|]. intros [?|[->|?]]; tauto.
    + rewrite elem_of_app, list_elem_of_singleton. tauto.
Qed.

Lemma Set_fold_NoDup (acc items : list string) :
  NoDup acc -> NoDup (foldl (fun s y => Set_add y s) acc items).
Proof.
  revert acc. induction items as [|y items IH]; intros acc Hacc; simpl; [done|].
  apply IH. unfold Set_add. case_decide; [done|].
  apply NoDup_app. split; [done|]. split; [|apply NoDup_singleton].
  intros x Hx ->%list_elem_of_singleton. contradiction.
Qed.

Lemma elem_of_categories l (c : string) :
  c ∈ categories l <-> exists q, q ∈ l /\ category q = c.
Proof.
  unfold categories, Array_from, Set_new.
  rewrite Set_fold_elem_of, elem_of_nil, list_elem_of_fmap. split.
  - intros [[]|(q & -> & Hq)]. by exists q.
  - intros (q & Hq & <-). right. by exists q.
Qed.

(** C8: for every store state, the categories the component computes from
    the collection it has just read are exactly the distinct [category]
    strings of the stored records: each once, none that no record carries,
    none when the collection is empty, and after a delete exactly those of
    the records that are left. *)
Theorem categories_distinct z :
  NoDup (categories (questions (getState z))) /\
  (forall c : string,
     c ∈ categories (questions (getState z)) <->
     exists q, q ∈ questions (getState z) /\ category q = c) /\
  (questions (getState z) = [] -> categories (questions (getState z)) = []) /\
  (forall id0 c : string,
     c ∈ categories (questions (getState (snd (deleteQuestion id0 z)))) <->
     exists q, q ∈ questions (getState z) /\ id q <> id0 /\ category q = c).
Proof.
  split; [|split; [|split]].
  - apply Set_fold_NoDup. constructor.
  - apply elem_of_categories.
  - by intros ->.
  - intros id0 c. rewrite elem_of_categories. simpl.
    setoid_rewrite list_elem_of_filter.
    split; intros (q & H); exists q; tauto.
Qed.

Lemma filter_all_iff (P : Question -> Prop) `{!forall q, Decision (P q)} l :
  filter P l = l <-> Forall P l.
Proof.
  split.
  - intros Heq. apply Forall_forall. intros q Hq. rewrite <- Heq in Hq.
    by apply list_elem_of_filter in Hq as [HP _].
  - induction 1 as [|q k Hq _ IH]; [done|]. by rewrite filter_cons_True, IH.
Qed.

(** C6, as specified: the store's query by category would return the whole
    collection for the argument ["all"]. On the store as created, which
    holds two records, neither of category ["all"],
    [getQuestionsByCategory("all")] returns the empty list. *)
Lemma getQuestionsByCategory_all_is_no_wildcard :
  length (questions (getState store0)) = 2%nat /\
  getQuestionsByCategory "all" store0 = [] /\
  getQuestionsByCategory "all" store0 <> questions (getState store0).
Proof. repeat split. discriminate. Qed.

(** C6, amended: for every store state, the store's query
    [getQuestionsByCategory] has no wildcard. For every argument, ["all"]
    included, it returns exactly the records whose [category] is that very
    string, in the order of the collection; for ["all"] that is the whole
    collection only when every record has the category ["all"]. The
    wildcard is the component's: [filteredQuestions] is the whole
    collection for the selection ["all"], and for every other selection it
    is what [getQuestionsByCategory] returns. *)
Theorem getQuestionsByCategory_no_wildcard z (c : string) :
  (forall q, q ∈ getQuestionsByCategory c z <->
             q ∈ questions (getState z) /\ category q = c) /\
  getQuestionsByCategory c z `sublist_of` questions (getState z) /\
  (forall l, l `sublist_of` questions (getState z) ->
             Forall (fun q => category q = c) l ->
             l `sublist_of` getQuestionsByCategory c z) /\
  (getQuestionsByCategory "all" z = questions (getState z) <->
   Forall (fun q : Question => category q = "all") (questions (getState z))) /\
  filteredQuestions "all" (questions (getState z)) = questions (getState z) /\
  (c <> "all" ->
   filteredQuestions c (questions (getState z)) = getQuestionsByCategory c z).
Proof.
  unfold filteredQuestions, getQuestionsByCategory.
  split; [|split; [|split; [|split; [|split]]]].
  - intros q. rewrite list_elem_of_filter. tauto.
  - apply sublist_filter.
  - intros l. apply sublist_filter_greatest.
  - apply filter_all_iff.
  - by rewrite decide_True.
  - intros Hc. by rewrite decide_False.
Qed.

(** The store's own [getQuestionsByCategory] knows no wildcard: it takes
    ["all"] for a category like any other; matching is exact, so another
    spelling of a category selects nothing. *)
Example getQuestionsByCategory_exact :
  getQuestionsByCategory "all" store0 = [] /\
  filteredQuestions "all" (questions (getState store0)) = questions (getState store0) /\
  filteredQuestions "geography" (questions (getState store0)) = [] /\
  (fun q : Question => id q) <$>
    filteredQuestions "Geography" (questions (getState store0)) = ["1"].
Proof. repeat split. Qed.

End Views.

(** * More on the schema *)

Section SchemaCases.

Implicit Types (v : JsValue) (p : list PathSeg) (props : gmap string JsValue).

Lemma get_prop_insert_ne props (k k' : string) v :
  k <> k' -> get_prop (<[k:=v]> props) k' = get_prop props k'.
Proof. intros Hne. unfold get_prop. by rewrite lookup_insert_ne. Qed.

Lemma get_prop_delete_ne props (k k' : string) :
  k <> k' -> get_prop (delete k props) k' = get_prop props k'.
Proof. intros Hne. unfold get_prop. by rewrite lookup_delete_ne. Qed.

(** The schema reads the six keys of its shape and nothing else. *)
Lemma safeParse_ext props props' :
  (forall k, k ∈ shape_keys -> get_prop props k = get_prop props' k) ->
  safeParse (JObject props) = safeParse (JObject props').
Proof.
  intros H. unfold safeParse, questionSchema.
  rewrite (H "type"), (H "question"), (H "options"), (H "correctAnswer"),
    (H "difficulty"), (H "category"); [done|..]; unfold shape_keys.
  - do 5 apply list_elem_of_further. apply list_elem_of_here.
  - do 4 apply list_elem_of_further. apply list_elem_of_here.
  - do 3 apply list_elem_of_further. apply list_elem_of_here.
  - do 2 apply list_elem_of_further. apply list_elem_of_here.
  - do 1 apply list_elem_of_further. apply list_elem_of_here.
  - apply list_elem_of_here.
Qed.

(** A schema that raises no issue has parsed a value. *)
Lemma z_string_min_value (msg : string) p v :
  fst (z_string_min 1 msg p v) = [] -> is_Some (snd (z_string_min 1 msg p v)).
Proof.
  unfold z_string_min. destruct v; simpl; try done.
  case_decide; simpl; [done|]. by eexists.
Qed.

Lemma z_enum_value {A} (values : list (string * A)) p v :
  fst (z_enum values p v) = [] -> is_Some (snd (z_enum values p v)).
Proof.
  unfold z_enum. destruct v; simpl; try done.
  destruct (_ !! s); simpl; [by eexists|done].
Qed.

Lemma z_array_value (f : nat -> JsValue -> Parsed string) (items : list JsValue) :
  (forall i x, fst (f i x) = [] -> is_Some (snd (f i x))) ->
  concat (fst <$> imap f items) = [] ->
  is_Some (mapM snd (imap f items)).
Proof.
  revert f. induction items as [|x items IH]; intros f Hf; [by eexists|].
  rewrite imap_cons, fmap_cons. simpl. intros [Hx Hrest]%app_eq_nil.
  destruct (Hf _ _ Hx) as [s ->]. simpl.
  destruct (IH (f ∘ S)) as [l ->]; [intros i y; apply Hf|done|]. by eexists.
Qed.

Lemma z_string_value p v : fst (z_string p v) = [] -> is_Some (snd (z_string p v)).
Proof. by destruct v. Qed.

Lemma z_options_value p v :
  fst (z_optional (z_array z_string) p v) = [] ->
  is_Some (snd (z_optional (z_array z_string) p v)).
Proof.
  destruct v; simpl; try done; try (by eexists).
  intros H. destruct (z_array_value
    (fun i item => z_string (p ++ [Index i])%list item) items) as [l Hl];
    [intros i x; apply z_string_value|done|].
  rewrite Hl. by eexists.
Qed.

Lemma type_values_name (s : string) (t : QuestionType) :
  (s, t) ∈ type_values <-> s = type_name t.
Proof.
  unfold type_values. rewrite !elem_of_cons, elem_of_nil. split.
  - intros [[= -> ->]|[[= -> ->]|[[= -> ->]|[]]]]; done.
  - intros ->. destruct t; simpl; tauto.
Qed.

Lemma difficulty_values_name (s : string) (d : Difficulty) :
  (s, d) ∈ difficulty_values <-> s = difficulty_name d.
Proof.
  unfold difficulty_values. rewrite !elem_of_cons, elem_of_nil. split.
  - intros [[= -> ->]|[[= -> ->]|[[= -> ->]|[]]]]; done.
  - intros ->. destruct d; simpl; tauto.
Qed.

(** A candidate that carries a record with its three texts filled in is
    accepted as that record. *)
Lemma safeParse_accepts props (r : QuestionForm) :
  get_prop props "type" = JString (type_name (type r)) ->
  get_prop props "question" = JString (question r) ->
  get_prop props "options" = js_options (options r) ->
  get_prop props "correctAnswer" = JString (correctAnswer r) ->
  get_prop props "difficulty" = JString (difficulty_name (difficulty r)) ->
  get_prop props "category" = JString (category r) ->
  texts_filled r ->
  safeParse (JObject props) = Success r.
Proof.
  intros Ht Hq Ho Ha Hd Hg (Hq' & Ha' & Hg').
  unfold safeParse, questionSchema.
  rewrite Ht, Hq, Ho, Ha, Hd, Hg, z_options_ok.
  rewrite (z_enum_ok type_values _ _ (type r) type_values_NoDup)
    by by apply type_values_name.
  rewrite (z_enum_ok difficulty_values _ _ (difficulty r) difficulty_values_NoDup)
    by by apply difficulty_values_name.
  rewrite (proj2 (z_string_min_inv _ _ _ (question r))) by done.
  rewrite (proj2 (z_string_min_inv _ _ _ (correctAnswer r))) by done.
  rewrite (proj2 (z_string_min_inv _ _ _ (category r))) by done.
  by destruct r.
Qed.

Lemma safeParse_js_of_form (r : QuestionForm) :
  texts_filled r -> safeParse (js_of_form r) = Success r.
Proof.
  intros Hr. unfold js_of_form, candidate.
  apply safeParse_accepts; try done; destruct (options r); reflexivity.
Qed.

(** Every issue a key raises sits on that key. *)
Lemma z_string_min_on_field (msg k : string) v :
  Forall (on_field k) (fst (z_string_min 1 msg [Key k] v)).
Proof.
  eapply Forall_impl; [apply z_string_min_path|]. intros i Hi. unfold on_field.
  by rewrite Hi.
Qed.

Lemma z_enum_on_field {A} (values : list (string * A)) (k : string) v :
  Forall (on_field k) (fst (z_enum values [Key k] v)).
Proof.
  eapply Forall_impl; [apply z_enum_path|]. intros i Hi. unfold on_field.
  by rewrite Hi.
Qed.

Lemma imap_issues_Forall (P : ZodIssue -> Prop)
    (f : nat -> JsValue -> Parsed string) (items : list JsValue) :
  (forall i x, Forall P (fst (f i x))) ->
  Forall P (concat (fst <$> imap f items)).
Proof.
  revert f. induction items as [|x items IH]; intros f Hf; [constructor|].
  rewrite imap_cons, fmap_cons. simpl. apply Forall_app. split; [apply Hf|].
  apply IH. intros i y. apply Hf.
Qed.

Lemma imap_issues_elem_of (f : nat -> JsValue -> Parsed string)
    (items : list JsValue) (n : nat) (x : JsValue) (i : ZodIssue) :
  items !! n = Some x -> i ∈ fst (f n x) ->
  i ∈ concat (fst <$> imap f items).
Proof.
  revert f n. induction items as [|y items IH]; intros f n; [done|].
  rewrite imap_cons, fmap_cons. simpl. rewrite elem_of_app.
  destruct n as [|n]; simpl.
  - intros [= ->] Hi. by left.
  - intros Hn Hi. right. by apply (IH (f ∘ S) n).
Qed.

Lemma z_options_on_field v :
  Forall (on_field "options")
    (fst (z_optional (z_array z_string) [Key "options"] v)).
Proof.
  destruct v; simpl; try (by repeat constructor).
  apply imap_issues_Forall. intros i x. by destruct x; repeat constructor.
Qed.

Lemma filter_other_field (k k' : string) (l : list ZodIssue) :
  k <> k' -> Forall (on_field k) l -> filter (on_field k') l = [].
Proof.
  intros Hne. induction 1 as [|i l Hi _ IH]; [done|].
  rewrite filter_cons_False; [done|].
  unfold on_field in *. rewrite Hi. by intros [= ?].
Qed.

(** What one key contributes to the issues on [k'] does not change when
    another key [k] is written. *)
Lemma field_issues_insert (F : JsValue -> list ZodIssue) (key k k' : string)
    props v :
  (forall w, Forall (on_field key) (F w)) -> k <> k' ->
  filter (on_field k') (F (get_prop (<[k:=v]> props) key))
    = filter (on_field k') (F (get_prop props key)).
Proof.
  intros HF Hne. destruct (decide (k = key)) as [->|Hk].
  - by rewrite !(filter_other_field key k').
  - by rewrite get_prop_insert_ne.
Qed.

(** X1: a candidate object is accepted, and as the record [r], exactly when
    its [type] and [difficulty] are the literals of [r]'s, its [question],
    [correctAnswer] and [category] are [r]'s strings and none of them is
    empty, and its [options] are [r]'s: missing, or the same array of
    strings. Nothing else is asked: no rule ties the options or the answer
    to the type. *)
Theorem safeParse_accepts_iff props (r : QuestionForm) :
  safeParse (JObject props) = Success r <->
  get_prop props "type" = JString (type_name (type r)) /\
  get_prop props "question" = JString (question r) /\
  get_prop props "options" = js_options (options r) /\
  get_prop props "correctAnswer" = JString (correctAnswer r) /\
  get_prop props "difficulty" = JString (difficulty_name (difficulty r)) /\
  get_prop props "category" = JString (category r) /\
  texts_filled r.
Proof.
  split.
  - intros (Ht & Hq & Ho & Ha & Hd & Hg)%safeParse_success_inv.
    apply z_enum_inv in Ht as (s & -> & ->%type_values_name).
    apply z_enum_inv in Hd as (s' & -> & ->%difficulty_values_name).
    apply z_options_inv in Ho.
    apply z_string_min_inv in Hq as [Hq Hq'], Ha as [Ha Ha'], Hg as [Hg Hg'].
    done.
  - intros (Ht & Hq & Ho & Ha & Hd & Hg & Hr). by apply safeParse_accepts.
Qed.

Lemma safeParse_Failure_cons v (issues : list ZodIssue) :
  safeParse v = Failure issues -> issues <> [].
Proof.
  destruct v; try (by intros [= <-]).
  intros H Hnil. subst issues.
  pose proof (issues_of_safeParse props) as Hi. rewrite H in Hi. simpl in Hi.
  symmetry in Hi.
  apply app_eq_nil in Hi as [H1 Hi]. apply app_eq_nil in Hi as [H2 Hi].
  apply app_eq_nil in Hi as [H3 Hi]. apply app_eq_nil in Hi as [H4 Hi].
  apply app_eq_nil in Hi as [H5 H6].
  apply z_enum_value in H1 as [t Ht], H5 as [d Hd].
  apply z_string_min_value in H2 as [q Hq], H4 as [a Ha], H6 as [g Hg].
  apply z_options_value in H3 as [o Ho].
  revert H. unfold safeParse, questionSchema.
  destruct (z_enum type_values _ _) as [i1 v1].
  destruct (z_string_min 1 "Question is required" _ _) as [i2 v2].
  destruct (z_optional _ _ _) as [i3 v3].
  destruct (z_string_min 1 "Correct answer is required" _ _) as [i4 v4].
  destruct (z_enum difficulty_values _ _) as [i5 v5].
  destruct (z_string_min 1 "Category is required" _ _) as [i6 v6].
  simpl in *. subst. simpl.
  by destruct (i1 ++ i2 ++ i3 ++ i4 ++ i5 ++ i6)%list.
Qed.

(** Only an object is accepted, and only with its three texts filled in. *)
Lemma safeParse_Success_texts v (data : QuestionForm) :
  safeParse v = Success data -> texts_filled data.
Proof.
  destruct v; try done.
  intros (_ & Hq & _ & Ha & _ & Hg)%safeParse_success_inv.
  apply z_string_min_inv in Hq as [_ Hq], Ha as [_ Ha], Hg as [_ Hg]. done.
Qed.

(** X2: a refusal always names at least one issue; and anything that is not
    an object (undefined, null, a boolean, a number, a string, an array) is
    refused with the single issue [invalid_type] at the root. *)
Theorem safeParse_failure_has_issue v :
  (forall issues, safeParse v = Failure issues -> issues <> []) /\
  ((forall props, v <> JObject props) ->
   safeParse v = Failure [mkIssue invalid_type [] None]).
Proof.
  split.
  - apply safeParse_Failure_cons.
  - intros Hv. destruct v; try done. by destruct (Hv props).
Qed.

(** X5: the schema looks at the six keys of its shape only. Writing or
    removing any other key of a candidate changes neither the verdict nor
    the record handed back (so an [id] or a [createdAt] typed into a
    candidate never reaches the record); and a key that holds [undefined]
    counts as a key that is not there. *)
Theorem safeParse_ignores_other_keys props (k : string) v :
  (k ∉ shape_keys ->
     safeParse (JObject (<[k:=v]> props)) = safeParse (JObject props) /\
     safeParse (JObject (delete k props)) = safeParse (JObject props)) /\
  safeParse (JObject (<[k:=JUndefined]> props)) = safeParse (JObject (delete k props)).
Proof.
  split.
  - intros Hk. split; apply safeParse_ext; intros k' Hk'.
    + apply get_prop_insert_ne. by intros ->.
    + apply get_prop_delete_ne. by intros ->.
  - apply safeParse_ext. intros k' _. unfold get_prop.
    destruct (decide (k = k')) as [->|Hne].
    + by rewrite lookup_insert_eq, lookup_delete_eq.
    + by rewrite lookup_insert_ne, lookup_delete_ne.
Qed.

(** X6: validation is idempotent. The record handed back for an accepted
    candidate, given to the schema again as the object it is, is accepted
    and comes back the same. *)
Theorem safeParse_idempotent props (r : QuestionForm) :
  safeParse (JObject props) = Success r ->
  safeParse (js_of_form r) = Success r.
Proof.
  intros (_ & Hq & _ & Ha & _ & Hg)%safeParse_success_inv.
  apply z_string_min_inv in Hq as [_ Hq], Ha as [_ Ha], Hg as [_ Hg].
  by apply safeParse_js_of_form.
Qed.

(** X6 on the padded candidate. *)
Lemma safeParse_idempotent_witness :
  safeParse (js_of_form
               (mkQuestionForm MultipleChoice " " (Some [""; "x"]) "A" Medium "  Math "))
    = Success (mkQuestionForm MultipleChoice " " (Some [""; "x"]) "A" Medium "  Math ").
Proof.
  apply (safeParse_idempotent
           (list_to_map
              [("type", JString "multiple-choice"); ("question", JString " ");
               ("options", JArray (JString <$> [""; "x"]));
               ("correctAnswer", JString "A"); ("difficulty", JString "medium");
               ("category", JString "  Math ")])).
  vm_compute. reflexivity.
Defined.

Lemma filter_same_field (k : string) (l : list ZodIssue) :
  Forall (on_field k) l -> filter (on_field k) l = l.
Proof.
  induction 1 as [|i l Hi _ IH]; [done|]. by rewrite filter_cons_True, IH.
Qed.

(** The issues on each key of the shape are those of that key's schema on
    that key's value. *)
Ltac issues_on_key k' :=
  intros; rewrite issues_of_safeParse, !filter_app;
  repeat match goal with
  | |- context [filter (on_field k') (fst (z_enum ?vals [Key ?k] ?v))] =>
      first
        [ rewrite (filter_same_field k' _ (z_enum_on_field vals k' v))
        | rewrite (filter_other_field k k' _ ltac:(discriminate)
                     (z_enum_on_field vals k v)) ]
  | |- context [filter (on_field k') (fst (z_string_min 1 ?msg [Key ?k] ?v))] =>
      first
        [ rewrite (filter_same_field k' _ (z_string_min_on_field msg k' v))
        | rewrite (filter_other_field k k' _ ltac:(discriminate)
                     (z_string_min_on_field msg k v)) ]
  | |- context [filter (on_field k')
                  (fst (z_optional (z_array z_string) [Key "options"] ?v))] =>
      first
        [ rewrite (filter_same_field "options" _ (z_options_on_field v))
        | rewrite (filter_other_field "options" k' _ ltac:(discriminate)
                     (z_options_on_field v)) ]
  end;
  by rewrite ?app_nil_r.

Lemma issues_on_type props :
  filter (on_field "type") (issues_of (safeParse (JObject props)))
    = fst (z_enum type_values [Key "type"] (get_prop props "type")).
Proof. issues_on_key "type". Qed.

Lemma issues_on_question props :
  filter (on_field "question") (issues_of (safeParse (JObject props)))
    = fst (z_string_min 1 "Question is required" [Key "question"]
             (get_prop props "question")).
Proof. issues_on_key "question". Qed.

Lemma issues_on_options props :
  filter (on_field "options") (issues_of (safeParse (JObject props)))
    = fst (z_optional (z_array z_string) [Key "options"] (get_prop props "options")).
Proof. issues_on_key "options". Qed.

Lemma issues_on_correctAnswer props :
  filter (on_field "correctAnswer") (issues_of (safeParse (JObject props)))
    = fst (z_string_min 1 "Correct answer is required" [Key "correctAnswer"]
             (get_prop props "correctAnswer")).
Proof. issues_on_key "correctAnswer". Qed.

Lemma issues_on_difficulty props :
  filter (on_field "difficulty") (issues_of (safeParse (JObject props)))
    = fst (z_enum difficulty_values [Key "difficulty"] (get_prop props "difficulty")).
Proof. issues_on_key "difficulty". Qed.

Lemma issues_on_category props :
  filter (on_field "category") (issues_of (safeParse (JObject props)))
    = fst (z_string_min 1 "Category is required" [Key "category"]
             (get_prop props "category")).
Proof. issues_on_key "category". Qed.

Lemma elem_of_issues_on (k : string) (i : ZodIssue) props :
  i ∈ filter (on_field k) (issues_of (safeParse (JObject props))) ->
  i ∈ issues_of (safeParse (JObject props)).
Proof. by intros [_ ?]%list_elem_of_filter. Qed.

Lemma no_issue_on (k : string) props :
  filter (on_field k) (issues_of (safeParse (JObject props))) = [] ->
  forall i, i ∈ issues_of (safeParse (JObject props)) -> ~ on_field k i.
Proof.
  intros Hnil i Hi Hon.
  assert (H : i ∈ filter (on_field k) (issues_of (safeParse (JObject props))))
    by by apply list_elem_of_filter.
  rewrite Hnil in H. by apply elem_of_nil in H.
Qed.

Lemma z_string_min_cases (msg : string) p v :
  (v = JString "" -> fst (z_string_min 1 msg p v) = [mkIssue too_small p (Some msg)]) /\
  ((forall s, v <> JString s) ->
     fst (z_string_min 1 msg p v) = [mkIssue invalid_type p None]) /\
  (forall s, v = JString s -> s <> "" -> fst (z_string_min 1 msg p v) = []).
Proof.
  split; [by intros ->|split].
  - intros Hv. destruct v; try done. by destruct (Hv s).
  - intros s -> Hs. by rewrite (proj2 (z_string_min_inv msg p _ s)).
Qed.

Lemma z_enum_cases {A} (values : list (string * A)) p v :
  (forall s, v = JString s -> s ∉ (fst <$> values) ->
     fst (z_enum values p v) = [mkIssue invalid_enum_value p None]) /\
  ((forall s, v <> JString s) ->
     fst (z_enum values p v) = [mkIssue invalid_type p None]).
Proof.
  split.
  - intros s -> Hs. unfold z_enum.
    by rewrite (not_elem_of_list_to_map_1 (M := gmap string) values s Hs).
  - intros Hv. destruct v; try done. by destruct (Hv s).
Qed.

(** X3: each of the three required texts is reported under its own key,
    whatever the other keys hold: the empty string as [too_small] with the
    message written in the schema, anything that is not a string (a missing
    key too) as [invalid_type]; a string that is not empty raises nothing
    on its key. *)
Theorem required_text_issue props (k msg : string) :
  (k, msg) ∈ required_text ->
  (get_prop props k = JString "" ->
     mkIssue too_small [Key k] (Some msg) ∈ issues_of (safeParse (JObject props))) /\
  ((forall s, get_prop props k <> JString s) ->
     mkIssue invalid_type [Key k] None ∈ issues_of (safeParse (JObject props))) /\
  (forall s, get_prop props k = JString s -> s <> "" ->
     forall i, i ∈ issues_of (safeParse (JObject props)) -> ~ on_field k i).
Proof.
  unfold required_text. rewrite !elem_of_cons, elem_of_nil.
  intros [[= -> ->]|[[= -> ->]|[[= -> ->]|[]]]].
  - destruct (z_string_min_cases "Question is required" [Key "question"]
                (get_prop props "question")) as (H1 & H2 & H3).
    pose proof (issues_on_question props) as Hf.
    split; [|split].
    + intros Hv. apply (elem_of_issues_on "question"). rewrite Hf, H1 by done.
      apply list_elem_of_here.
    + intros Hv. apply (elem_of_issues_on "question"). rewrite Hf, H2 by done.
      apply list_elem_of_here.
    + intros s Hv Hs. apply no_issue_on. rewrite Hf. by apply (H3 s).
  - destruct (z_string_min_cases "Correct answer is required" [Key "correctAnswer"]
                (get_prop props "correctAnswer")) as (H1 & H2 & H3).
    pose proof (issues_on_correctAnswer props) as Hf.
    split; [|split].
    + intros Hv. apply (elem_of_issues_on "correctAnswer"). rewrite Hf, H1 by done.
      apply list_elem_of_here.
    + intros Hv. apply (elem_of_issues_on "correctAnswer"). rewrite Hf, H2 by done.
      apply list_elem_of_here.
    + intros s Hv Hs. apply no_issue_on. rewrite Hf. by apply (H3 s).
  - destruct (z_string_min_cases "Category is required" [Key "category"]
                (get_prop props "category")) as (H1 & H2 & H3).
    pose proof (issues_on_category props) as Hf.
    split; [|split].
    + intros Hv. apply (elem_of_issues_on "category"). rewrite Hf, H1 by done.
      apply list_elem_of_here.
    + intros Hv. apply (elem_of_issues_on "category"). rewrite Hf, H2 by done.
      apply list_elem_of_here.
    + intros s Hv Hs. apply no_issue_on. rewrite Hf. by apply (H3 s).
Qed.

(** X3 on the values the form is reset to: the blank category is reported
    with its message. *)
Lemma required_text_issue_witness :
  mkIssue too_small [Key "category"] (Some "Category is required")
    ∈ issues_of (safeParse reset_values).
Proof.
  unfold reset_values, candidate.
  refine (proj1 (required_text_issue _ "category" "Category is required" _) _).
  - do 2 apply list_elem_of_further. apply list_elem_of_here.
  - vm_compute. reflexivity.
Defined.

(** X4: the two enumerations are never coerced. A [type] or [difficulty]
    that is a string other than the three literals, another spelling of one
    of them included, is reported as [invalid_enum_value] under its key, and
    one that is not a string as [invalid_type]. *)
Theorem enum_not_coerced props :
  (forall s, get_prop props "type" = JString s ->
     s ∉ ["multiple-choice"; "true-false"; "short-answer"] ->
     mkIssue invalid_enum_value [Key "type"] None
       ∈ issues_of (safeParse (JObject props))) /\
  ((forall s, get_prop props "type" <> JString s) ->
     mkIssue invalid_type [Key "type"] None ∈ issues_of (safeParse (JObject props))) /\
  (forall s, get_prop props "difficulty" = JString s ->
     s ∉ ["easy"; "medium"; "hard"] ->
     mkIssue invalid_enum_value [Key "difficulty"] None
       ∈ issues_of (safeParse (JObject props))) /\
  ((forall s, get_prop props "difficulty" <> JString s) ->
     mkIssue invalid_type [Key "difficulty"] None
       ∈ issues_of (safeParse (JObject props))).
Proof.
  destruct (z_enum_cases type_values [Key "type"] (get_prop props "type"))
    as [Ht1 Ht2].
  destruct (z_enum_cases difficulty_values [Key "difficulty"]
              (get_prop props "difficulty")) as [Hd1 Hd2].
  pose proof (issues_on_type props) as Hft.
  pose proof (issues_on_difficulty props) as Hfd.
  split; [|split; [|split]].
  - intros s Hv Hs. apply (elem_of_issues_on "type").
    rewrite Hft, (Ht1 s) by done. apply list_elem_of_here.
  - intros Hv. apply (elem_of_issues_on "type").
    rewrite Hft, Ht2 by done. apply list_elem_of_here.
  - intros s Hv Hs. apply (elem_of_issues_on "difficulty").
    rewrite Hfd, (Hd1 s) by done. apply list_elem_of_here.
  - intros Hv. apply (elem_of_issues_on "difficulty").
    rewrite Hfd, Hd2 by done. apply list_elem_of_here.
Qed.

(** X7: the schema has no rule across keys. The issues reported on a key
    stay the same, in the same order, when any other key of the candidate
    is written. *)
Theorem issues_of_key_local props (k k' : string) v :
  k <> k' ->
  filter (on_field k') (issues_of (safeParse (JObject (<[k:=v]> props))))
    = filter (on_field k') (issues_of (safeParse (JObject props))).
Proof.
  intros Hne. rewrite !issues_of_safeParse, !filter_app.
  rewrite (field_issues_insert
             (fun w => fst (z_enum type_values [Key "type"] w)) "type")
    by (done || intros w; apply z_enum_on_field).
  rewrite (field_issues_insert
             (fun w => fst (z_string_min 1 "Question is required" [Key "question"] w))
             "question")
    by (done || intros w; apply z_string_min_on_field).
  rewrite (field_issues_insert
             (fun w => fst (z_optional (z_array z_string) [Key "options"] w))
             "options")
    by (done || intros w; apply z_options_on_field).
  rewrite (field_issues_insert
             (fun w => fst (z_string_min 1 "Correct answer is required"
                              [Key "correctAnswer"] w)) "correctAnswer")
    by (done || intros w; apply z_string_min_on_field).
  rewrite (field_issues_insert
             (fun w => fst (z_enum difficulty_values [Key "difficulty"] w))
             "difficulty")
    by (done || intros w; apply z_enum_on_field).
  by rewrite (field_issues_insert
             (fun w => fst (z_string_min 1 "Category is required" [Key "category"] w))
             "category")
    by (done || intros w; apply z_string_min_on_field).
Qed.

(** X7 on the reset values: typing a type that is no literal leaves the
    one issue on [question] as it was. *)
Lemma issues_of_key_local_witness :
  filter (on_field "question")
    (issues_of (safeParse (JObject (<["type" := JString "essay"]>
       (list_to_map
          [("type", JString "multiple-choice"); ("question", JString "");
           ("correctAnswer", JString ""); ("difficulty", JString "medium");
           ("category", JString "")])))))
  = [mkIssue too_small [Key "question"] (Some "Question is required")].
Proof.
  rewrite (issues_of_key_local _ "type" "question") by discriminate.
  vm_compute. reflexivity.
Defined.

Lemma all_strings (items : list JsValue) :
  Forall (fun x => exists s, x = JString s) items ->
  exists l : list string, items = JString <$> l.
Proof.
  induction 1 as [|x items [s ->] _ [l ->]]; [by exists []|]. by exists (s :: l).
Qed.

(** X8: in an [options] array every entry that is not a string (a hole of
    the array reads [undefined]) is reported at its own index, and an array
    of strings only, the empty array too, raises nothing on [options]. *)
Theorem options_item_issue props (items : list JsValue) :
  get_prop props "options" = JArray items ->
  (forall (n : nat) x, items !! n = Some x -> (forall s, x <> JString s) ->
     mkIssue invalid_type [Key "options"; Index n] None
       ∈ issues_of (safeParse (JObject props))) /\
  (Forall (fun x => exists s, x = JString s) items ->
   forall i, i ∈ issues_of (safeParse (JObject props)) -> ~ on_field "options" i).
Proof.
  intros Ho. pose proof (issues_on_options props) as Hf. rewrite Ho in Hf. split.
  - intros n x Hn Hx. apply (elem_of_issues_on "options"). rewrite Hf. simpl.
    eapply imap_issues_elem_of; [exact Hn|].
    destruct x; try apply list_elem_of_here. by destruct (Hx s).
  - intros [l ->]%all_strings. apply no_issue_on. rewrite Hf.
    change (JArray (JString <$> l)) with (js_options (Some l)).
    by rewrite z_options_ok.
Qed.

(** X8 on an array with a hole at index 1. *)
Lemma options_item_issue_witness :
  mkIssue invalid_type [Key "options"; Index 1] None
    ∈ issues_of (safeParse (JObject (list_to_map
         [("options", js_of_slots [Some "a"; None; Some "c"])]))).
Proof.
  refine (proj1 (options_item_issue _ [JString "a"; JUndefined; JString "c"] _)
            1%nat JUndefined _ _).
  - vm_compute. reflexivity.
  - reflexivity.
  - discriminate.
Defined.

End SchemaCases.

(** * How the actions of the store compose *)

Section StoreLaws.

Implicit Types (z : Zustand) (q : Question) (u : PartialQuestion).
Implicit Types (l : list Question).

Lemma spread_idempotent q u : spread (spread q u) u = spread q u.
Proof. destruct u as [[] [] [] [] [] [] [] []]; reflexivity. Qed.

Lemma ids_filter (P : Question -> Prop) `{!forall q, Decision (P q)} l :
  ((fun q => id q) <$> filter P l) `sublist_of` ((fun q => id q) <$> l).
Proof. apply fmap_sublist, sublist_filter. Qed.

Lemma filter_absent_iff (id0 : string) l :
  filter (fun q => id q <> id0) l = l <-> id0 ∉ ((fun q => id q) <$> l).
Proof.
  split; [|apply filter_other_absent].
  intros Heq Hin. apply filter_other_present in Hin. rewrite Heq in Hin. lia.
Qed.

(** X9: deleting is idempotent and two deletes commute: deleting an id a
    second time changes nothing, and the order in which two ids are deleted
    does not matter for the collection that is left. *)
Theorem deleteQuestion_idempotent_commutes z (id1 id2 : string) :
  questions (getState (snd (deleteQuestion id1 (snd (deleteQuestion id1 z)))))
    = questions (getState (snd (deleteQuestion id1 z))) /\
  questions (getState (snd (deleteQuestion id1 (snd (deleteQuestion id2 z)))))
    = questions (getState (snd (deleteQuestion id2 (snd (deleteQuestion id1 z))))).
Proof.
  simpl. split.
  - apply list_filter_filter_l. tauto.
  - rewrite !list_filter_filter. apply list_filter_iff. tauto.
Qed.

(** X10: deleting the id of the record just added gives the collection that
    deleting that id before the addition would have given: the older records
    that carry the same id go too. The collection is back to what it was
    before the addition exactly when that id was carried by no record. *)
Theorem addQuestion_then_delete z (f : QuestionForm) (now : Z) (created : Date) :
  questions (getState (snd (deleteQuestion (toString now)
                              (snd (addQuestion f now created z)))))
    = questions (getState (snd (deleteQuestion (toString now) z))) /\
  (questions (getState (snd (deleteQuestion (toString now)
                               (snd (addQuestion f now created z)))))
     = questions (getState z)
   <-> toString now ∉ ids z).
Proof.
  assert (H : questions (getState (snd (deleteQuestion (toString now)
                                          (snd (addQuestion f now created z)))))
              = questions (getState (snd (deleteQuestion (toString now) z)))).
  { simpl. rewrite filter_app, filter_cons_False, filter_nil, app_nil_r; [done|].
    simpl. by intros Hne. }
  split; [exact H|]. rewrite H. simpl. apply filter_absent_iff.
Qed.

(** X11: updating is idempotent, also when the argument renames the id:
    the same update a second time leaves the collection as the first left
    it. *)
Theorem updateQuestion_idempotent z (id0 : string) u :
  questions (getState (snd (updateQuestion id0 u (snd (updateQuestion id0 u z)))))
    = questions (getState (snd (updateQuestion id0 u z))).
Proof.
  simpl. rewrite <- list_fmap_compose. apply list_fmap_ext. intros _ q _. simpl.
  destruct (decide (id q = id0)) as [Hq|Hq].
  - case_decide; [apply spread_idempotent|done].
  - by rewrite decide_False.
Qed.

(** X12: an update that leaves the id alone (it does not name [id], or names
    the same id) does not save a record from the delete that follows: the
    collection is what the delete alone leaves. An update that renames the
    id puts its records out of reach of a delete of the old id, which then
    removes nothing. *)
Theorem updateQuestion_then_delete z (id0 : string) u :
  (p_id u = None \/ p_id u = Some id0 ->
     questions (getState (snd (deleteQuestion id0 (snd (updateQuestion id0 u z)))))
       = questions (getState (snd (deleteQuestion id0 z)))) /\
  (forall id1 : string, p_id u = Some id1 -> id1 <> id0 ->
     questions (getState (snd (deleteQuestion id0 (snd (updateQuestion id0 u z)))))
       = questions (getState (snd (updateQuestion id0 u z)))).
Proof.
  simpl. split.
  - intros Hu. induction (questions (getState z)) as [|q l IH]; [done|].
    rewrite fmap_cons. destruct (decide (id q = id0)) as [Hq|Hq].
    + rewrite !filter_cons_False; [exact IH|by intros Hne|].
      simpl. intros Hne. apply Hne. destruct Hu as [-> | ->]; simpl; done.
    + by rewrite !filter_cons_True, IH.
  - intros id1 Hu Hne. induction (questions (getState z)) as [|q l IH]; [done|].
    rewrite fmap_cons, filter_cons_True, IH; [done|].
    case_decide; [|done]. simpl. by rewrite Hu.
Qed.

(** X13: on a collection whose ids are pairwise distinct, a delete keeps
    them distinct, an update that does not name [id] leaves the list of ids
    as it is, and an addition keeps them distinct exactly when the decimal
    string of its clock reading is not an id of the collection. *)
Theorem ids_stay_distinct z (id0 : string) u (f : QuestionForm) (now : Z)
    (created : Date) :
  NoDup (ids z) ->
  NoDup (ids (snd (deleteQuestion id0 z))) /\
  (p_id u = None -> ids (snd (updateQuestion id0 u z)) = ids z) /\
  (NoDup (ids (snd (addQuestion f now created z))) <-> toString now ∉ ids z).
Proof.
  intros Hnd. unfold ids in *. simpl. split; [|split].
  - eapply sublist_NoDup; [exact Hnd|apply ids_filter].
  - intros Hu. rewrite <- list_fmap_compose. apply list_fmap_ext. intros _ q _.
    simpl. case_decide; [|done]. simpl. by rewrite Hu.
  - rewrite fmap_app. simpl. rewrite NoDup_app. split.
    + intros (_ & Hdis & _) Hin. apply (Hdis _ Hin). apply list_elem_of_here.
    + intros Hfresh. split; [done|]. split; [|apply NoDup_singleton].
      intros x Hx ->%list_elem_of_singleton. contradiction.
Qed.

(** X13 on the store as created, deleting ["1"] and adding at clock
    reading [1700000000000]. *)
Lemma ids_stay_distinct_witness :
  NoDup (ids store0) /\
  NoDup (ids (snd (deleteQuestion "1" store0))) /\
  NoDup (ids store1).
Proof.
  assert (Hnd : NoDup (ids store0)).
  { unfold ids. simpl. repeat (constructor; [absent_id|]). constructor. }
  destruct (ids_stay_distinct store0 "1" hard_only sample_form
              1700000000000 1700000000000 Hnd) as (Hdel & _ & Hadd).
  split; [exact Hnd|]. split; [exact Hdel|]. apply Hadd. absent_id.
Defined.

(** X14: the store's query by category goes through the three actions.
    After an addition it has the new record at its end when the record's
    category is the one asked for, and is unchanged otherwise; after a
    delete it is the query of before without the records of that id; after
    an update that does not name [category] it is the query of before with
    the same update applied. *)
Theorem getQuestionsByCategory_after z (c id0 : string) u (f : QuestionForm)
    (now : Z) (created : Date) :
  getQuestionsByCategory c (snd (addQuestion f now created z))
    = (getQuestionsByCategory c z ++
       if decide (category f = c) then [mkQuestion f (toString now) created] else [])%list /\
  getQuestionsByCategory c (snd (deleteQuestion id0 z))
    = filter (fun q => id q <> id0) (getQuestionsByCategory c z) /\
  (p_category u = None ->
   getQuestionsByCategory c (snd (updateQuestion id0 u z))
     = (fun q => if decide (id q = id0) then spread q u else q)
         <$> getQuestionsByCategory c z).
Proof.
  unfold getQuestionsByCategory. simpl. split; [|split].
  - rewrite filter_app. by f_equal.
  - rewrite !list_filter_filter. apply list_filter_iff. tauto.
  - intros Hu. induction (questions (getState z)) as [|q l IH]; [done|].
    rewrite fmap_cons.
    assert (Hc : category (form (if decide (id q = id0) then spread q u else q))
                 = category q).
    { case_decide; [|done]. simpl. by rewrite Hu. }
    destruct (decide (category q = c)) as [Hq|Hq].
    + rewrite (filter_cons_True _ q) by done.
      rewrite filter_cons_True by (cbv beta; by rewrite Hc).
      by rewrite fmap_cons, IH.
    + rewrite (filter_cons_False _ q) by done.
      rewrite filter_cons_False by (cbv beta; by rewrite Hc). exact IH.
Qed.

End StoreLaws.

(** * More on the derived views *)

Section ViewLaws.

Implicit Types (z : Zustand) (q : Question) (l : list Question).

Lemma Set_add_nil (y : string) : Set_add y [] = [y].
Proof. unfold Set_add. rewrite decide_False; [done|]. apply not_elem_of_nil. Qed.

Lemma Set_fold_from (acc items : list string) :
  foldl (fun s y => Set_add y s) acc items
    = (acc ++ filter (fun x => x ∉ acc) (Set_new items))%list.
Proof.
  unfold Set_new. revert acc.
  induction items as [|y items IH]; intros acc.
  - simpl. by rewrite app_nil_r.
  - cbn [foldl]. rewrite Set_add_nil, (IH [y]), (IH (Set_add y acc)).
    rewrite filter_app, list_filter_filter.
    unfold Set_add. case_decide as Hy.
    + rewrite filter_cons_False, filter_nil by (by intros Hn). simpl.
      f_equal. apply list_filter_iff. intros x.
      rewrite list_elem_of_singleton. split; [|tauto].
      intros Hx. split; [done|]. by intros ->.
    + rewrite filter_cons_True, filter_nil by done. simpl.
      rewrite <- app_assoc. simpl. do 2 f_equal. apply list_filter_iff. intros x.
      rewrite elem_of_app, !list_elem_of_singleton. tauto.
Qed.

(** X16: the categories come in the order in which they are first met in
    the collection. The category of the first record leads, followed by
    the categories of the rest without it; and an addition leaves the
    categories as they are when the new record's category is among them,
    and puts it at their end otherwise. *)
Theorem categories_first_seen z q l (f : QuestionForm) (now : Z) (created : Date) :
  categories (q :: l)
    = category q :: filter (fun c => c <> category q) (categories l) /\
  categories (questions (getState (snd (addQuestion f now created z))))
    = if decide (category f ∈ categories (questions (getState z)))
      then categories (questions (getState z))
      else (categories (questions (getState z)) ++ [category f])%list.
Proof.
  split.
  - unfold categories, Array_from. rewrite fmap_cons.
    change (Set_new (category q :: ((fun q0 : Question => category q0) <$> l)))
      with (foldl (fun s y => Set_add y s) (Set_add (category q) [])
              ((fun q0 : Question => category q0) <$> l)).
    rewrite Set_fold_from. unfold Set_add. simpl. f_equal.
    apply list_filter_iff. intros c. rewrite list_elem_of_singleton. tauto.
  - simpl. unfold categories, Array_from, Set_new.
    by rewrite fmap_app, foldl_app.
Qed.

(** X17: the list shown is empty, and the component says that no questions
    were found, in two cases only: the selection is ["all"] and the store is
    empty, or the selection is another string that is the category of no
    stored record (a selection left over from a delete, for one). A category
    that the filter offers never selects an empty list. *)
Theorem filteredQuestions_empty_iff z (selectedCategory : string) :
  (filteredQuestions selectedCategory (questions (getState z)) = [] <->
   (selectedCategory = "all" /\ questions (getState z) = []) \/
   (selectedCategory <> "all" /\
    selectedCategory ∉ categories (questions (getState z)))) /\
  (selectedCategory ∈ categories (questions (getState z)) ->
   filteredQuestions selectedCategory (questions (getState z)) <> []).
Proof.
  assert (Hfilter : forall c : string,
             filter (fun q : Question => category q = c) (questions (getState z)) = []
             <-> c ∉ categories (questions (getState z))).
  { intros c. rewrite elem_of_categories. split.
    - intros Hnil (q & Hq & Hc).
      assert (Hin : q ∈ filter (fun q : Question => category q = c)
                          (questions (getState z)))
        by by apply list_elem_of_filter.
      rewrite Hnil in Hin. by apply elem_of_nil in Hin.
    - intros Hno.
      destruct (filter _ _) as [|q k] eqn:E; [done|]. exfalso. apply Hno.
      assert (Hin : q ∈ filter (fun q : Question => category q = c)
                          (questions (getState z)))
        by (rewrite E; apply list_elem_of_here).
      apply list_elem_of_filter in Hin as [Hc Hq]. by exists q. }
  unfold filteredQuestions. split.
  - case_decide as Hall.
    + split; [intros Hnil; by left|]. intros [[_ Hnil]|[Hne _]]; [done|].
      by destruct Hne.
    + rewrite Hfilter. split; [intros Hno; by right|].
      by intros [[Heq _]|[_ Hno]].
  - intros Hin. case_decide as Hall.
    + intros Hnil. rewrite Hnil in Hin. by apply elem_of_nil in Hin.
    + rewrite Hfilter. tauto.
Qed.

Lemma sum_list_indicator (c : string) (D : list string) :
  NoDup D -> c ∈ D ->
  sum_list ((fun d => if decide (c = d) then 1 else 0)%nat <$> D) = 1%nat.
Proof.
  induction 1 as [|d D Hd Hnd IH]; intros Hin; [by apply elem_of_nil in Hin|].
  rewrite fmap_cons. csimpl. apply elem_of_cons in Hin as [->|Hin].
  - rewrite decide_True by done.
    rewrite (sum_list_fmap_same 0%nat); [lia|].
    apply Forall_forall. intros x Hx. rewrite decide_False; [done|].
    by intros ->.
  - rewrite decide_False by (by intros ->). by rewrite IH.
Qed.

Lemma sum_list_fmap_add {A} (g h : A -> nat) (D : list A) :
  sum_list ((fun d => g d + h d)%nat <$> D)
    = (sum_list (g <$> D) + sum_list (h <$> D))%nat.
Proof. induction D as [|d D IH]; csimpl; [done|]. rewrite IH. lia. Qed.

Lemma category_counts (D : list string) l :
  NoDup D -> (forall q, q ∈ l -> category q ∈ D) ->
  sum_list ((fun c => length (filter (fun q : Question => category q = c) l)) <$> D)
    = length l.
Proof.
  intros Hnd. induction l as [|q l IH]; intros Hin.
  - simpl. by rewrite (sum_list_fmap_same 0%nat); [lia|apply Forall_forall].
  - rewrite (list_fmap_ext _
      (fun c => ((if decide (category q = c) then 1 else 0)
                 + length (filter (fun q : Question => category q = c) l))%nat)).
    + rewrite sum_list_fmap_add, sum_list_indicator, IH; [done| |done|].
      * intros r Hr. apply Hin. by apply list_elem_of_further.
      * apply Hin, list_elem_of_here.
    + intros _ c _. rewrite filter_cons. by case_decide.
Qed.

(** X18: the categories split the collection. The sizes of the store's
    queries [getQuestionsByCategory], taken over the categories in the
    filter, add up to the size of the collection: every record is in the
    query of exactly one offered category. *)
Theorem categories_partition z :
  sum_list ((fun c => length (getQuestionsByCategory c z))
              <$> categories (questions (getState z)))
    = length (questions (getState z)).
Proof.
  unfold getQuestionsByCategory. apply category_counts.
  - apply Set_fold_NoDup. constructor.
  - intros q Hq. apply elem_of_categories. by exists q.
Qed.

End ViewLaws.

(** * The form and the component *)

Section ComponentLaws.

Implicit Types (c : Component) (a : list (option string)).

(** X19: writing an option of the form, at any index. The written index
    then holds the value; the length is the old one for an index inside the
    array, and the index plus one beyond it; every other index inside the old
    array keeps what it held; the indices between the old end and the
    written one are holes. On an array without holes, the result has no
    hole exactly when the index is at most the old length. *)
Theorem updateOption_writes (options0 : option (list (option string)))
    (index : nat) (value : string) :
  updateOption options0 index value !! index = Some (Some value) /\
  length (updateOption options0 index value)
    = Nat.max (length (default [] options0)) (S index) /\
  (forall j : nat, j <> index -> (j < length (default [] options0))%nat ->
     updateOption options0 index value !! j = default [] options0 !! j) /\
  (forall j : nat, (length (default [] options0) <= j < index)%nat ->
     updateOption options0 index value !! j = Some None) /\
  (Forall is_Some (default [] options0) ->
   (Forall is_Some (updateOption options0 index value)
    <-> (index <= length (default [] options0))%nat)).
Proof.
  unfold updateOption, array_assign. simpl.
  generalize (default [] options0). intros a.
  case_decide as Hlt.
  - split; [by apply list_lookup_insert_eq|].
    split; [rewrite length_insert; lia|].
    split; [intros j Hj _; by apply list_lookup_insert_ne|].
    split; [intros j Hj; lia|].
    intros Ha. split; [intros _; lia|]. intros _.
    apply Forall_insert; [done|]. by eexists.
  - assert (Hlen : length (a ++ replicate (index - length a) None)%list = index)
      by (rewrite length_app, length_replicate; lia).
    split.
    { rewrite app_assoc, lookup_app_r by lia. rewrite Hlen.
      by replace (index - index)%nat with 0%nat by lia. }
    split; [rewrite !length_app, length_replicate; simpl; lia|].
    split; [intros j _ Hj; by apply lookup_app_l|].
    split.
    { intros j Hj. rewrite lookup_app_r by lia.
      rewrite lookup_app_l by (rewrite length_replicate; lia).
      apply lookup_replicate_2. lia. }
    intros Ha. rewrite !Forall_app. split.
    + intros (_ & Hholes & _).
      destruct (decide (index = length a)) as [->|Hne]; [lia|]. exfalso.
      assert (Hin : (None : option string) ∈ replicate (index - length a) None).
      { apply elem_of_replicate. split; [done|lia]. }
      rewrite Forall_forall in Hholes. by destruct (Hholes _ Hin).
    + intros Hle. replace (index - length a)%nat with 0%nat by lia.
      split; [done|]. split; [constructor|]. repeat constructor. by eexists.
Qed.

(** X20: the three difficulties of the schema are shown in three different
    colours, none of them the grey of the default branch, which is what any
    other string gets. *)
Theorem getDifficultyColor_distinct (a b : string) :
  (getDifficultyColor a = "bg-gray-100 text-gray-800"
   <-> a ∉ ["easy"; "medium"; "hard"]) /\
  (forall d d' : Difficulty,
     getDifficultyColor (difficulty_name d) = getDifficultyColor (difficulty_name d') ->
     d = d').
Proof.
  split.
  - unfold getDifficultyColor. rewrite !not_elem_of_cons.
    repeat case_decide; subst; split; try done; try tauto.
    intros _. repeat split; try done. apply not_elem_of_nil.
  - intros [] []; vm_compute; congruence.
Qed.

(** X21: a submission. When the schema accepts the form's values, exactly
    one record is appended to the collection, carrying the parsed data, the
    decimal string of the clock reading as id and the date read; no error is
    shown and the form is reset. The reset values are themselves refused, so
    a second submission right after it adds nothing. When the schema refuses
    the values, the component is unchanged (the store is not touched) and at
    least one issue is shown. *)
Theorem handleSubmit_cases (now : Z) (created : Date) c :
  (forall data, safeParse (formValues c) = Success data ->
     questions (getState (store (fst (handleSubmit now created c))))
       = (questions (getState (store c)) ++ [mkQuestion data (toString now) created])%list /\
     formValues (fst (handleSubmit now created c)) = reset_values /\
     snd (handleSubmit now created c) = [] /\
     forall (now' : Z) (created' : Date),
       fst (handleSubmit now' created' (fst (handleSubmit now created c)))
         = fst (handleSubmit now created c) /\
       snd (handleSubmit now' created' (fst (handleSubmit now created c))) <> []) /\
  (forall issues, safeParse (formValues c) = Failure issues ->
     handleSubmit now created c = (c, issues) /\ issues <> []).
Proof.
  split.
  - intros data Hd. unfold handleSubmit at 1 2 3. rewrite Hd. simpl.
    do 3 (split; [done|]). intros now' created'.
    unfold handleSubmit. rewrite Hd. simpl.
    assert (Hreset : exists issues, safeParse reset_values = Failure issues)
      by (eexists; vm_compute; reflexivity).
    destruct Hreset as [issues Hreset]. rewrite Hreset. simpl.
    split; [done|]. by eapply safeParse_Failure_cons.
  - intros issues Hi. unfold handleSubmit. rewrite Hi.
    split; [done|]. by eapply safeParse_Failure_cons.
Qed.

(** X15: whatever the user does (typing, submitting, deleting a record that
    is shown), every record of the store has a question, an answer and a
    category that are not empty, and an id that is the decimal string of an
    integer. *)
Theorem ui_reachable_records c :
  ui_reachable c ->
  Forall (fun q : Question => texts_filled q /\ exists t : Z, id q = toString t)
         (questions (getState (store c))).
Proof.
  intros (t0 & t1 & Hsteps).
  revert c Hsteps. apply rtc_ind_r.
  - simpl. repeat constructor; try discriminate.
    + by exists 1.
    + by exists 2.
  - intros c c' _ Hstep IH.
    destruct Hstep as [c v|c now created|c sel q Hq]; simpl.
    + exact IH.
    + unfold handleSubmit. destruct (safeParse (formValues c)) as [data|] eqn:E;
        simpl; [|exact IH].
      apply Forall_app. split; [exact IH|]. constructor; [|constructor].
      simpl. split; [by eapply safeParse_Success_texts|]. by exists now.
    + rewrite Forall_forall in IH. apply Forall_forall.
      intros r [_ Hr]%list_elem_of_filter. by apply IH.
Qed.

(** X15 after typing a short-answer question and submitting it. *)
Lemma ui_reachable_records_witness :
  Forall (fun q : Question => texts_filled q /\ exists t : Z, id q = toString t)
         (questions (getState store1)).
Proof.
  apply (ui_reachable_records
           (fst (handleSubmit 1700000000000 1700000000000
                   {| store := store0;
                      formValues := candidate "short-answer" "2+2?" None "4"
                                      "easy" "Math" |}))).
  exists 0, 0. eapply rtc_l; [apply ui_edit|]. eapply rtc_l; [apply ui_submit|].
  apply rtc_refl.
Defined.

End ComponentLaws.
